(** * traad: the rope interface and the server entry point

    A shallow embedding of [traad/rope_interface.py] and [traad/server.py].
    Python values are modelled as the code uses them: [str] as [string],
    [int] as [Z], lists as [list] with Python's subscript rule written out,
    exceptions as an explicit result type, and the mutable project the
    interface owns as a state that every method threads through. *)

From Stdlib Require Import ZArith Ascii String.
From stdpp Require Import base tactics option list strings gmap.

(** ** Python values, exceptions and list subscripts *)

Module Py.

(** The exception classes that the modelled code can raise or let pass. *)
Inductive exn : Type :=
| IndexError
| KeyError
| ValueError
| SystemExit (code : Z)
| ResourceNotFoundError
| EngineError (msg : string).

Inductive result (A : Type) : Type :=
| Ok (a : A)
| Raise (e : exn).
Arguments Ok {A} a.
Arguments Raise {A} e.

(** [isinstance(e, Exception)]: of the classes above only [SystemExit]
    derives from [BaseException] directly. *)
Definition is_exception (e : exn) : bool :=
  match e with SystemExit _ => false | _ => true end.

(** [seq[idx]] on a Python list: a negative subscript counts from the
    end, and a subscript outside [-len, len) raises [IndexError]. *)
Definition norm_index (len : nat) (idx : Z) : option nat :=
  if (0 <=? idx)%Z then
    if (idx <? Z.of_nat len)%Z then Some (Z.to_nat idx) else None
  else
    if (0 <=? idx + Z.of_nat len)%Z
    then Some (Z.to_nat (idx + Z.of_nat len)) else None.

(** The subscript returns the selected object; the model returns it with
    its position in the list, which stands for the identity of the object
    where a callee has to find it again in the same list. *)
Definition subscript {A} (seq : list A) (idx : Z) : result (nat * A) :=
  match norm_index (length seq) idx with
  | Some i =>
      match seq !! i with
      | Some x => Ok (i, x)
      | None => Raise IndexError
      end
  | None => Raise IndexError
  end.

Definition getitem {A} (seq : list A) (idx : Z) : result A :=
  match subscript seq idx with
  | Ok (_, x) => Ok x
  | Raise e => Raise e
  end.

End Py.
Export Py.

(** ** [os.path] on POSIX

    [rope_interface.py] calls [os.path.isabs] and [os.path.relpath]; on a
    POSIX host these are the functions of CPython's [posixpath], which the
    definitions below follow statement by statement. *)

Module posixpath.

Definition sep : string := "/".
Definition curdir : string := ".".
Definition pardir : string := "..".

Definition is_sep (c : ascii) : bool := Ascii.eqb c "/".

(** [s.startswith('/')] *)
Definition startswith_sep (s : string) : bool :=
  match s with
  | String c _ => is_sep c
  | EmptyString => false
  end.

(** [s.endswith('/')] *)
Fixpoint endswith_sep (s : string) : bool :=
  match s with
  | EmptyString => false
  | String c EmptyString => is_sep c
  | String _ s' => endswith_sep s'
  end.

(** [s.split('/')]: never empty, [''.split('/') == ['']]. *)
Fixpoint split (s : string) : list string :=
  match s with
  | EmptyString => [EmptyString]
  | String c s' =>
      if is_sep c then EmptyString :: split s'
      else match split s' with
           | h :: t => String c h :: t
           | [] => [String c EmptyString]
           end
  end.

(** [isabs(s)]: the path starts with a slash. *)
Definition isabs (s : string) : bool := startswith_sep s.

(** One round of the loop of [join(a, *p)]. *)
Definition join_step (path b : string) : string :=
  if startswith_sep b then b
  else if (String.eqb path "" || endswith_sep path)%bool then path +:+ b
  else path +:+ sep +:+ b.

Definition join (a : string) (p : list string) : string :=
  fold_left join_step p a.

(** [sep.join(comps)] *)
Fixpoint sep_join (comps : list string) : string :=
  match comps with
  | [] => ""
  | [c] => c
  | c :: rest => c +:+ sep +:+ sep_join rest
  end.

(** The number of leading slashes [normpath] keeps: POSIX keeps exactly
    two, and treats three or more as one. *)
Definition initial_slashes (path : string) : nat :=
  match path with
  | String c1 (String c2 (String c3 _)) =>
      if is_sep c1 then
        if is_sep c2 then (if is_sep c3 then 1 else 2) else 1
      else 0
  | String c1 (String c2 EmptyString) =>
      if is_sep c1 then (if is_sep c2 then 2 else 1) else 0
  | String c1 EmptyString => if is_sep c1 then 1 else 0
  | EmptyString => 0
  end.

(** The body of the [for comp in comps] loop of [normpath]. *)
Definition norm_step (slashes : nat) (new_comps : list string)
    (comp : string) : list string :=
  if (String.eqb comp "" || String.eqb comp curdir)%bool then new_comps
  else if (negb (String.eqb comp pardir)
           || (Nat.eqb slashes 0 && Nat.eqb (length new_comps) 0)
           || (negb (Nat.eqb (length new_comps) 0)
               && bool_decide (last new_comps = Some pardir)))%bool
  then new_comps ++ [comp]
  else removelast new_comps.

Definition norm_comps (path : string) : list string :=
  fold_left (norm_step (initial_slashes path)) (split path) [].

Fixpoint repeat_sep (n : nat) : string :=
  match n with
  | O => ""
  | S n' => sep +:+ repeat_sep n'
  end.

Definition normpath (path : string) : string :=
  if String.eqb path "" then curdir
  else
    let r := repeat_sep (initial_slashes path) +:+ sep_join (norm_comps path) in
    if String.eqb r "" then curdir else r.

(** [abspath(path)]; [cwd] is what [os.getcwd()] returns. *)
Definition abspath (cwd path : string) : string :=
  if isabs path then normpath path else normpath (join cwd [path]).

(** [[x for x in s.split(sep) if x]] *)
Definition nonempty_comps (s : string) : list string :=
  filter (λ x, x ≠ "") (split s).

(** [commonprefix] of two component lists: their longest common prefix. *)
Fixpoint commonprefix (l1 l2 : list string) : list string :=
  match l1, l2 with
  | x :: l1', y :: l2' =>
      if String.eqb x y then x :: commonprefix l1' l2' else []
  | _, _ => []
  end.

(** The [rel_list] that [relpath] builds from its two arguments. *)
Definition rel_list (cwd path start : string) : list string :=
  let start_list := nonempty_comps (abspath cwd start) in
  let path_list := nonempty_comps (abspath cwd path) in
  let i := length (commonprefix start_list path_list) in
  replicate (length start_list - i) pardir ++ drop i path_list.

(** [relpath(path, start)] *)
Definition relpath (cwd path start : string) : result string :=
  if String.eqb path "" then Raise ValueError
  else
    match rel_list cwd path start with
    | [] => Ok curdir
    | a :: p => Ok (join a p)
    end.

(** A component of a path: not empty, and without a slash. *)
Fixpoint has_sep (s : string) : bool :=
  match s with
  | EmptyString => false
  | String c s' => (is_sep c || has_sep s')%bool
  end.

Definition component (c : string) : Prop := c ≠ "" ∧ has_sep c = false.

(** The path [p] lies under the directory [start]: the components of
    [abspath(start)] open those of [abspath(p)]. *)
Definition under (cwd start p : string) : Prop :=
  nonempty_comps (abspath cwd start) `prefix_of`
    nonempty_comps (abspath cwd p).

(** The first component of [q] is ['..']. *)
Definition begins_with_pardir (q : string) : Prop :=
  head (split q) = Some pardir.

(** What [join] appends to its first argument when every later argument
    is a component. *)
Fixpoint sep_tail (p : list string) : string :=
  match p with
  | [] => ""
  | c :: p' => sep +:+ c +:+ sep_tail p'
  end.

End posixpath.

(** ** The rope project as the interface sees it *)

(** Modelled from the spec: rope's [Resource] class is not part of this
    repository. A
    resource is a file or a folder, identified by its project-relative
    [path]; [real_path] is its absolute path on disk, [is_folder] tells the
    two apart and a folder lists its children. *)
Local Unset Elimination Schemes.
Inductive Resource : Type :=
| File (path real_path : string)
| Folder (path real_path : string) (children : list Resource).
Local Set Elimination Schemes.

Definition path (r : Resource) : string :=
  match r with File p _ | Folder p _ _ => p end.

Definition real_path (r : Resource) : string :=
  match r with File _ rp | Folder _ rp _ => rp end.

Definition is_folder (r : Resource) : bool :=
  match r with File _ _ => false | Folder _ _ _ => true end.

Definition get_children (r : Resource) : list Resource :=
  match r with File _ _ => [] | Folder _ _ cs => cs end.

(** Modelled from the spec: rope's [Project.get_resource] is not part of
    this repository.
    It returns the resource of the tree with the given project-relative
    path (the root has path ['']) and raises when there is none. *)
Fixpoint find_resource (p : string) (r : Resource) : option Resource :=
  if String.eqb (path r) p then Some r
  else
    match r with
    | File _ _ => None
    | Folder _ _ cs =>
        (fix find_in (cs : list Resource) : option Resource :=
           match cs with
           | [] => None
           | c :: cs' =>
               match find_resource p c with
               | Some x => Some x
               | None => find_in cs'
               end
           end) cs
    end.

Definition get_resource (root : Resource) (p : string) : result Resource :=
  match find_resource p root with
  | Some r => Ok r
  | None => Raise ResourceNotFoundError
  end.

(** [get_all_resources(proj)]: the [while todo] loop, with the generator's
    output collected as [list(...)] does. The loop has no bound of its own,
    so the model counts its rounds with [fuel]; [None] is a loop that has
    not finished within [fuel] rounds. *)
Fixpoint get_all_resources_loop (fuel : nat) (root : Resource)
    (todo : list string) : option (result (list (string * bool))) :=
  match todo with
  | [] => Some (Ok [])
  | res_path :: todo =>
      match fuel with
      | O => None
      | S fuel =>
          match get_resource root res_path with
          | Raise e => Some (Raise e)
          | Ok res =>
              let todo :=
                if is_folder res
                then todo ++ map path (get_children res)
                else todo in
              match get_all_resources_loop fuel root todo with
              | Some (Ok rest) => Some (Ok ((path res, is_folder res) :: rest))
              | other => other
              end
          end
      end
  end.

(** [xs] yielded before what the rest of the loop yields. *)
Definition prepend (xs : list (string * bool))
    (o : option (result (list (string * bool))))
  : option (result (list (string * bool))) :=
  match o with
  | Some (Ok ys) => Some (Ok (xs ++ ys))
  | other => other
  end.

Definition get_all_resources (fuel : nat) (root : Resource)
  : option (result (list (string * bool))) :=
  get_all_resources_loop fuel root [""].

(** Breadth-first order, stated on the tree: the resources at depth [d]
    from left to right, for [d = 0, 1, 2, ...]. *)
Fixpoint at_depth (d : nat) (forest : list Resource) : list Resource :=
  match d with
  | O => forest
  | S d' => at_depth d' (flat_map get_children forest)
  end.

Fixpoint height (r : Resource) : nat :=
  match r with
  | File _ _ => 0
  | Folder _ _ cs =>
      S ((fix max_height (cs : list Resource) : nat :=
            match cs with
            | [] => 0
            | c :: cs' => Nat.max (height c) (max_height cs')
            end) cs)
  end.

Definition level_order (n : nat) (forest : list Resource) : list Resource :=
  flat_map (λ d, at_depth d forest) (seq 0 n).

Definition breadth_first (root : Resource) : list Resource :=
  level_order (S (height root)) [root].

(** Every resource of the tree, parents before children. *)
Fixpoint all_resources (r : Resource) : list Resource :=
  r :: match r with
       | File _ _ => []
       | Folder _ _ cs =>
           (fix all_in (cs : list Resource) : list Resource :=
              match cs with
              | [] => []
              | c :: cs' => all_resources c ++ all_in cs'
              end) cs
       end.

Definition info (r : Resource) : string * bool := (path r, is_folder r).

(** A project tree: the root is the folder with path [''] and no two
    resources share a path. *)
Definition well_formed (root : Resource) : Prop :=
  path root = "" ∧ NoDup (map path (all_resources root)).

(** Induction on a resource, with the induction hypothesis for every child
    of a folder. *)
Fixpoint Resource_ind (P : Resource → Prop)
    (Hfile : ∀ p rp, P (File p rp))
    (Hfolder : ∀ p rp cs, Forall P cs → P (Folder p rp cs))
    (r : Resource) : P r :=
  match r with
  | File p rp => Hfile p rp
  | Folder p rp cs =>
      Hfolder p rp cs
        ((fix all (cs : list Resource) : Forall P cs :=
            match cs with
            | [] => @List.Forall_nil _ P
            | c :: cs' =>
                @List.Forall_cons _ P c cs'
                  (Resource_ind P Hfile Hfolder c) (all cs')
            end) cs)
  end.

(** [find_resource] in a list of siblings. *)
Definition find_among (p : string) (cs : list Resource) : option Resource :=
  foldr (λ c rest, match find_resource p c with
                   | Some x => Some x
                   | None => rest
                   end) None cs.

(** Modelled from the spec: rope's [ChangeSet] and its [changes] are not
    part of this repository. A change set carries a description, a timestamp, its full textual
    description and one entry per changed resource. *)
Record Change : Type := {
  resource_path : string;
  change_description : string;
}.

Record ChangeSet : Type := {
  description : string;
  time : Z;
  full_description : string;
  changes : list Change;
}.

Inductive ExtractClass : Type := ExtractMethod | ExtractVariable.

(** Modelled from the spec: the analysis engine (rope) is not part of
    this repository. The
    interface reaches it through these operations (spec, section 4.2):
    the resource tree, the refactoring objects and the change sets they
    compute, applying a change set to the project's contents, the inverse
    of a change set, and the definition lookup. An operation that fails
    raises; [apply_changes] also returns the contents it leaves behind. *)
Class AnalysisEngine : Type := {
  Contents : Type;
  Extractor : Type;
  Renamer : Type;
  resources : Contents → Resource;
  new_extractor :
    ExtractClass → Contents → Resource → Z → Z → result Extractor;
  extractor_get_changes : Extractor → string → Contents → result ChangeSet;
  new_renamer : Contents → Resource → option Z → result Renamer;
  renamer_get_changes : Renamer → string → Contents → result ChangeSet;
  apply_changes : ChangeSet → Contents → result unit * Contents;
  inverse : ChangeSet → ChangeSet;
  codeassist_get_definition_location :
    Contents → string → Z → Resource → result (option Resource * option Z);
}.

(** Modelled from the spec: rope's [Project] and its [History] are not
    part of this repository. A project owns its contents and one change
    history, two lists of change sets, most recent first (spec,
    section 3). *)
Record Project `{AnalysisEngine} : Type := {
  contents : Contents;
  undo_list : list ChangeSet;
  redo_list : list ChangeSet;
}.

(** What a method of [RopeInterface] can read and change: [self.proj], the
    working directory of the process that [os.path] consults, and the
    records the module's logger has received. *)
Record World `{AnalysisEngine} : Type := {
  proj : Project;
  cwd : string;
  log : list string;
}.

Section Interface.
Context `{E : AnalysisEngine}.

(** A method call: it returns or raises, and leaves a world behind in
    both cases. *)
Definition M (A : Type) : Type := World → result A * World.

Definition ret {A} (a : A) : M A := λ w, (Ok a, w).
Definition raise {A} (e : exn) : M A := λ w, (Raise e, w).
Definition bind {A B} (m : M A) (k : A → M B) : M B :=
  λ w, match m w with
       | (Ok a, w') => k a w'
       | (Raise e, w') => (Raise e, w')
       end.
Definition lift {A} (r : result A) : M A := λ w, (r, w).
Definition read {A} (f : World → A) : M A := λ w, (Ok (f w), w).

(** An engine call that reads the contents of the project. *)
Definition engine {A} (f : Contents → result A) : M A :=
  λ w, (f (contents (proj w)), w).

Notation "x <- m ;; k" := (bind m (λ x, k))
  (at level 100, m at next level, right associativity, only parsing).

(** [try: body / except Exception: log.exception(msg); raise]; the
    clause lets [SystemExit] pass, which is not an [Exception]. *)
Definition try_log_raise {A} (msg : string) (body : M A) : M A :=
  λ w, match body w with
       | (Ok a, w') => (Ok a, w')
       | (Raise e, w') =>
           if is_exception e
           then (Raise e, {| proj := proj w'; cwd := cwd w';
                             log := log w' ++ [msg] |})
           else (Raise e, w')
       end.

Definition set_proj (p : Project) : M unit :=
  λ w, (Ok tt, {| proj := p; cwd := cwd w; log := log w |}).

(** [self.proj.root]: the root folder of the resource tree. *)
Definition root (p : Project) : Resource := resources (contents p).

(** Modelled from the spec: [History.record] (section 4.4): push to the
    front of [undo_list], clear [redo_list]. *)
Definition History_record (cs : ChangeSet) (p : Project) : Project :=
  {| contents := contents p;
     undo_list := cs :: undo_list p;
     redo_list := [] |}.

(** Modelled from the spec: [Project.do] (section 4.3): apply the change
    set through the engine, then record it; a failing apply raises before
    anything is recorded. *)
Definition Project_do (cs : ChangeSet) : M unit :=
  λ w,
    let p := proj w in
    match apply_changes cs (contents p) with
    | (Ok _, c') =>
        set_proj (History_record cs
                    {| contents := c'; undo_list := undo_list p;
                       redo_list := redo_list p |}) w
    | (Raise e, c') =>
        (Raise e,
         {| proj := {| contents := c'; undo_list := undo_list p;
                       redo_list := redo_list p |};
            cwd := cwd w; log := log w |})
    end.

(** Modelled from the spec: [History.undo] (sections 3 and 4.4), called
    with the entry at position [i] of [undo_list]: remove the entry, apply
    its inverse through the engine, push the inverse to the front of
    [redo_list]. *)
Definition History_undo (i : nat) (change : ChangeSet) : M unit :=
  λ w,
    let p := proj w in
    let undo_list' := delete i (undo_list p) in
    match apply_changes (inverse change) (contents p) with
    | (Ok _, c') =>
        set_proj {| contents := c'; undo_list := undo_list';
                    redo_list := inverse change :: redo_list p |} w
    | (Raise e, c') =>
        (Raise e,
         {| proj := {| contents := c'; undo_list := undo_list';
                       redo_list := redo_list p |};
            cwd := cwd w; log := log w |})
    end.

(** Modelled from the spec: [History.redo], the mirror image of
    [History.undo]: from [redo_list] back onto [undo_list]. *)
Definition History_redo (i : nat) (change : ChangeSet) : M unit :=
  λ w,
    let p := proj w in
    let redo_list' := delete i (redo_list p) in
    match apply_changes (inverse change) (contents p) with
    | (Ok _, c') =>
        set_proj {| contents := c';
                    undo_list := inverse change :: undo_list p;
                    redo_list := redo_list' |} w
    | (Raise e, c') =>
        (Raise e,
         {| proj := {| contents := c'; undo_list := undo_list p;
                       redo_list := redo_list' |};
            cwd := cwd w; log := log w |})
    end.

(** *** [RopeInterface] *)

(** [_to_relative_path(self, path)] *)
Definition _to_relative_path (p : string) : M string :=
  λ w,
    if posixpath.isabs p
    then lift (posixpath.relpath (cwd w) p (real_path (root (proj w)))) w
    else ret p w.

(** [RopeInterface.get_all_resources(self)] *)
Definition RopeInterface_get_all_resources (fuel : nat)
  : World → option (result (list (string * bool))) :=
  λ w, get_all_resources fuel (root (proj w)).

(** [self.proj.history.undo_list[idx]], and the same for [redo_list]. *)
Definition history_entry (list_of : Project → list ChangeSet) (idx : Z)
  : M (nat * ChangeSet) :=
  λ w, (subscript (list_of (proj w)) idx, w).

(** [undo(self, idx=0)] *)
Definition undo (idx : Z) : M unit :=
  entry <- history_entry undo_list idx ;;
  History_undo entry.1 entry.2.

(** [redo(self, idx=0)] *)
Definition redo (idx : Z) : M unit :=
  entry <- history_entry redo_list idx ;;
  History_redo entry.1 entry.2.

(** [undo_history(self)] and [redo_history(self)] *)
Definition undo_history : M (list string) :=
  read (λ w, map description (undo_list (proj w))).

Definition redo_history : M (list string) :=
  read (λ w, map description (redo_list (proj w))).

(** The dict that [_history_info] builds. *)
Record HistoryInfo : Type := {
  info_description : string;
  info_time : Z;
  info_full_change : string;
  info_changes : list (string * string);
}.

Definition change_contents (c : Change) : string * string :=
  (resource_path c, change_description c).

(** [_history_info(self, seq, idx)] *)
Definition _history_info (seq : list ChangeSet) (idx : Z)
  : result HistoryInfo :=
  match getitem seq idx with
  | Raise e => Raise e
  | Ok c =>
      Ok {| info_description := description c;
            info_time := time c;
            info_full_change := full_description c;
            info_changes := map change_contents (changes c) |}
  end.

Definition undo_info (idx : Z) : M HistoryInfo :=
  λ w, lift (_history_info (undo_list (proj w)) idx) w.

Definition redo_info (idx : Z) : M HistoryInfo :=
  λ w, lift (_history_info (redo_list (proj w)) idx) w.

(** [self.proj.get_resource(path)] *)
Definition proj_get_resource (p : string) : M Resource :=
  λ w, lift (get_resource (root (proj w)) p) w.

(** [_extract(self, path, name, start_offset, end_offset, cls)] *)
Definition _extract (p name : string) (start_offset end_offset : Z)
    (cls : ExtractClass) : M unit :=
  p <- _to_relative_path p ;;
  res <- proj_get_resource p ;;
  extractor <- engine (λ c, new_extractor cls c res start_offset end_offset) ;;
  try_log_raise "_extract failed"
    (cs <- engine (extractor_get_changes extractor name) ;;
     Project_do cs).

Definition extract_method (name p : string) (start_offset end_offset : Z)
  : M unit :=
  _extract p name start_offset end_offset ExtractMethod.

Definition extract_variable (name p : string) (start_offset end_offset : Z)
  : M unit :=
  _extract p name start_offset end_offset ExtractVariable.

(** [rename(self, new_name, path, offset=None)] *)
Definition rename (new_name p : string) (offset : option Z) : M unit :=
  p <- _to_relative_path p ;;
  res <- proj_get_resource p ;;
  renamer <- engine (λ c, new_renamer c res offset) ;;
  try_log_raise "rename failed"
    (cs <- engine (renamer_get_changes renamer new_name) ;;
     Project_do cs).

(** The first slot of the pair [get_definition_location] returns: [None],
    a path, or (when the engine's pair is passed on as it is) whatever
    the engine put there. *)
Inductive Location : Type :=
| LNone
| LPath (p : string)
| LResource (r : Resource).

(** [get_definition_location(self, code, offset, path)] *)
Definition get_definition_location (code : string) (offset : Z)
    (p : string) : M (Location * option Z) :=
  p <- _to_relative_path p ;;
  res <- proj_get_resource p ;;
  rslt <- engine (λ c, codeassist_get_definition_location c code offset res) ;;
  match rslt with
  | (r0, None) =>
      ret (match r0 with Some r => LResource r | None => LNone end, None)
  | (None, Some line) => ret (LPath p, Some line)
  | (Some r, Some line) => ret (LPath (real_path r), Some line)
  end.

End Interface.

(** ** [traad/server.py] *)

Module server.

(** The levels of [logging] that [main] uses. *)
Inductive Level : Type := WARNING | INFO | DEBUG.

(** What the command line supplies: the value after [-p], the value after
    [-V] and the positional project directory, each possibly absent. *)
Record Argv : Type := {
  arg_port : option Z;
  arg_verbosity : option Z;
  arg_project : option string;
}.

Record Namespace : Type := {
  port : Z;
  verbosity : Z;
  project : string;
}.

(** [parser.parse_args()] for the three arguments [main] declares: the
    options fall back to their [default=0], the positional [project] has
    no default and argparse exits with status 2 without it. *)
Definition parse_args (argv : Argv) : result Namespace :=
  match arg_project argv with
  | None => Raise (SystemExit 2)
  | Some d =>
      Ok {| port := default 0%Z (arg_port argv);
            verbosity := default 0%Z (arg_verbosity argv);
            project := d |}
  end.

(** The dict literal indexed by [args.verbosity]. *)
Definition levels : gmap Z Level :=
  <[0%Z := WARNING]> (<[1%Z := INFO]> (<[2%Z := DEBUG]> ∅)).

Definition level_of (v : Z) : result Level :=
  match levels !! v with
  | Some l => Ok l
  | None => Raise KeyError
  end.

(** What [main] hands on: the level given to [logging.basicConfig] and
    the project path and port given to [run_server]. *)
Record Launch : Type := {
  launch_level : Level;
  launch_project : string;
  launch_port : Z;
}.

Definition main (argv : Argv) : result Launch :=
  match parse_args argv with
  | Raise e => Raise e
  | Ok args =>
      match level_of (verbosity args) with
      | Raise e => Raise e
      | Ok level =>
          Ok {| launch_level := level;
                launch_project := project args;
                launch_port := port args |}
      end
  end.

End server.

(** ** Requests and sequences of calls *)

(** The three refactoring operations of the interface with their
    arguments. *)
Inductive Refactoring : Type :=
| ExtractMethodCall (name p : string) (start_offset end_offset : Z)
| ExtractVariableCall (name p : string) (start_offset end_offset : Z)
| RenameCall (new_name p : string) (offset : option Z).

Definition perform `{AnalysisEngine} (op : Refactoring) : M unit :=
  match op with
  | ExtractMethodCall name p s e => extract_method name p s e
  | ExtractVariableCall name p s e => extract_variable name p s e
  | RenameCall new_name p offset => rename new_name p offset
  end.

(** One call after the other, stopping at the first that raises. *)
Fixpoint perform_all `{AnalysisEngine} (ops : list Refactoring) : M unit :=
  match ops with
  | [] => ret tt
  | op :: ops' => bind (perform op) (λ _, perform_all ops')
  end.

(** [n] calls of [undo(0)]. *)
Fixpoint undo_times `{AnalysisEngine} (n : nat) : M unit :=
  match n with
  | O => ret tt
  | S n' => bind (undo 0) (λ _, undo_times n')
  end.

(** The contract of the engine that reversibility rests on (spec, sections
    3 and 4.4): applying the inverse of a change set right after the change
    set itself restores the contents. *)
Definition invertible `{AnalysisEngine} : Prop :=
  ∀ cs c c', apply_changes cs c = (Ok tt, c') →
             apply_changes (inverse cs) c' = (Ok tt, c).

(** A failing apply leaves the contents as they were. *)
Definition atomic `{AnalysisEngine} : Prop :=
  ∀ cs c e c', apply_changes cs c = (Raise e, c') → c' = c.

(** The contract of the definition lookup (spec, section 4.2): a result
    without a line has no resource either. *)
Definition lookup_contract (rslt : option Resource * option Z) : Prop :=
  rslt.2 = None → rslt.1 = None.

(** The engine has computed [cs] from the contents [c]. *)
Definition computed `{AnalysisEngine} (cs : ChangeSet) (c : Contents) : Prop :=
  (∃ extractor name, extractor_get_changes extractor name c = Ok cs) ∨
  (∃ renamer name, renamer_get_changes renamer name c = Ok cs).

(** What a refactoring call can do to the world [w]: apply and record a
    computed change set and return, or raise with the history as it was
    and the contents either untouched or as a failed apply left them. *)
Inductive outcome `{AnalysisEngine} (w : World)
  : result unit → World → Prop :=
| applied_and_recorded cs c' :
    computed cs (contents (proj w)) →
    apply_changes cs (contents (proj w)) = (Ok tt, c') →
    outcome w (Ok tt)
      {| proj := {| contents := c';
                    undo_list := cs :: undo_list (proj w);
                    redo_list := [] |};
         cwd := cwd w; log := log w |}
| raised_before_apply e w' :
    proj w' = proj w → cwd w' = cwd w →
    outcome w (Raise e) w'
| raised_in_apply cs e c' w' :
    apply_changes cs (contents (proj w)) = (Raise e, c') →
    proj w' = {| contents := c'; undo_list := undo_list (proj w);
                 redo_list := redo_list (proj w) |} →
    cwd w' = cwd w →
    outcome w (Raise e) w'.

(** The change sets of [l] (most recent first) lead, applied one after
    the other, from the contents [c0] to the contents [c]. *)
Fixpoint applied_chain `{AnalysisEngine} (l : list ChangeSet)
    (c0 c : Contents) : Prop :=
  match l with
  | [] => c = c0
  | cs :: l' =>
      ∃ c_mid, applied_chain l' c0 c_mid ∧
               apply_changes cs c_mid = (Ok tt, c)
  end.

(** ** A small engine to run the interface on

    Its contents are a revision counter: applying a change set adds the
    change set's [time] to it and fails on a change set with [time = 0];
    the inverse negates [time]. The project is one folder with one file. *)
Module counter.

Definition tree : Resource :=
  Folder "" "/proj" [File "mod.py" "/proj/mod.py"].

Definition change_set (name : string) (t : Z) : ChangeSet :=
  {| description := name; time := t; full_description := name;
     changes := [ {| resource_path := "mod.py";
                     change_description := name |} ] |}.

Definition negate (cs : ChangeSet) : ChangeSet :=
  {| description := description cs; time := - time cs;
     full_description := full_description cs; changes := changes cs |}.

#[export] Instance engine : AnalysisEngine := {|
  Contents := Z;
  Extractor := Z * Z;
  Renamer := option Z;
  resources := λ _, tree;
  new_extractor := λ _ _ _ s e, Ok (s, e);
  extractor_get_changes := λ '(s, e) name _,
    if (s <? e)%Z then Ok (change_set name (e - s))
    else Raise (EngineError "empty region");
  new_renamer := λ _ _ offset, Ok offset;
  renamer_get_changes := λ offset name _,
    Ok (change_set name (default 0%Z offset));
  apply_changes := λ cs c,
    if (time cs =? 0)%Z then (Raise (EngineError "nothing to apply"), c)
    else (Ok tt, (c + time cs)%Z);
  inverse := negate;
  codeassist_get_definition_location := λ _ _ offset res,
    if (offset <? 0)%Z then Ok (None, None)
    else if (offset <? 100)%Z then Ok (None, Some offset)
    else Ok (Some res, Some 1%Z);
|}.

Definition world (c : Z) (u r : list ChangeSet) : World :=
  {| proj := {| contents := c; undo_list := u; redo_list := r |};
     cwd := "/home"; log := [] |}.

End counter.

(** ** The query methods of [RopeInterface] *)

(** A proposal of rope's code assist, as far as [code_assist] reads it:
    [name], [get_doc()], [scope] and [type]. *)
Record Proposal : Type := {
  proposal_name : string;
  proposal_doc : option string;
  proposal_scope : string;
  proposal_type : string;
}.

Section Queries.
Context `{E : AnalysisEngine}.

(** [rope.contrib.codeassist.code_assist] and [get_doc], which are not part
    of this repository: two more operations of the engine. *)
Variable codeassist_code_assist :
  Contents → string → Z → Resource → result (list Proposal).
Variable codeassist_get_doc :
  Contents → string → Z → Resource → result (option string).

Notation "x <- m ;; k" := (bind m (λ x, k))
  (at level 100, m at next level, right associativity, only parsing).

(** [get_children(self, path)] *)
Definition RopeInterface_get_children (p : string)
  : M (list (string * bool)) :=
  p <- _to_relative_path p ;;
  res <- proj_get_resource p ;;
  ret (map info (get_children res)).

(** The tuple [code_assist] builds from a proposal. *)
Definition proposal_tuple (r : Proposal)
  : string * option string * string * string :=
  (proposal_name r, proposal_doc r, proposal_scope r, proposal_type r).

(** [code_assist(self, code, offset, path)] *)
Definition code_assist (code : string) (offset : Z) (p : string)
  : M (list (string * option string * string * string)) :=
  p <- _to_relative_path p ;;
  res <- proj_get_resource p ;;
  results <- engine (λ c, codeassist_code_assist c code offset res) ;;
  ret (map proposal_tuple results).

(** [get_doc(self, code, offset, path)] *)
Definition get_doc (code : string) (offset : Z) (p : string)
  : M (option string) :=
  p <- _to_relative_path p ;;
  res <- proj_get_resource p ;;
  engine (λ c, codeassist_get_doc c code offset res).

End Queries.

(** [x] stands before [y] in [l]. *)
Definition precedes {A} (x y : A) (l : list A) : Prop :=
  ∃ l1 l2 l3, l = l1 ++ x :: l2 ++ y :: l3.

(** A component that [normpath] keeps as it is: neither ['.'] nor
    ['..']. *)
Definition plain_component (c : string) : Prop :=
  posixpath.component c ∧ c ≠ posixpath.curdir ∧ c ≠ posixpath.pardir.

(** ** [run_server] and the effects of [main] *)

Module server_run.
Import server.

(** The three records that [main] and [run_server] hand to [log.info]. *)
Inductive Message : Type :=
| ProjectRoot (project : string)
| PythonVersion (version : string)
| Running (app host : string) (port : Z).

(** What the process does, in order: [logging.basicConfig(level=...)], a
    record that the logger lets through, [app.install] of the workspace
    plugin of a project, [app.run(host=..., port=...)]. *)
Inductive Event : Type :=
| BasicConfig (level : Level)
| Emit (m : Message)
| Install (project_path : string)
| Run (host : string) (port : Z).

(** The numeric levels of [logging]. *)
Definition levelno (l : Level) : Z :=
  match l with WARNING => 30 | INFO => 20 | DEBUG => 10 end.

(** [log.info(...)] with the root logger at [level]: the record passes
    when [INFO] is at or above the level. *)
Definition log_info (level : Level) (m : Message) : list Event :=
  if (levelno level <=? levelno INFO)%Z then [Emit m] else [].

(** [run_server(project_path, app, port)]; [version] is [sys.version] and
    [app] the text of the application object. *)
Definition run_server (level : Level) (version : string)
    (project_path app : string) (port : Z) : list Event :=
  let host := "localhost" in
  log_info level (PythonVersion version)
  ++ log_info level (Running app host port)
  ++ [Install project_path; Run host port].

(** [main()]: the events up to the point where it returns or raises. *)
Definition main (version app : string) (argv : Argv)
  : list Event * result unit :=
  match parse_args argv with
  | Raise e => ([], Raise e)
  | Ok args =>
      match level_of (verbosity args) with
      | Raise e => ([], Raise e)
      | Ok level =>
          (BasicConfig level
           :: log_info level (ProjectRoot (project args))
           ++ run_server level version (project args) app (port args),
           Ok tt)
      end
  end.

Definition is_emit (e : Event) : bool :=
  match e with Emit _ => true | _ => false end.

End server_run.

(** The counter engine with a definition lookup that finds the resource
    of a definition and no line. *)
Definition lineless_engine : AnalysisEngine := {|
  Contents := @Contents counter.engine;
  Extractor := @Extractor counter.engine;
  Renamer := @Renamer counter.engine;
  resources := @resources counter.engine;
  new_extractor := @new_extractor counter.engine;
  extractor_get_changes := @extractor_get_changes counter.engine;
  new_renamer := @new_renamer counter.engine;
  renamer_get_changes := @renamer_get_changes counter.engine;
  apply_changes := @apply_changes counter.engine;
  inverse := @inverse counter.engine;
  codeassist_get_definition_location := λ _ _ _ res, Ok (Some res, None);
|}.

Definition lineless_world : @World lineless_engine :=
  @Build_World lineless_engine
    (@Build_Project lineless_engine 7%Z [] []) "/home" [].

(** ** The steps of a refactoring *)





(** * Properties *)

(** ** List subscripts *)

Lemma norm_index_ge (len : nat) (idx : Z) :
  (Z.of_nat len ≤ idx)%Z → norm_index len idx = None.
Proof.
  intros Hge. unfold norm_index.
  destruct (Z.leb_spec 0 idx); [|lia].
  destruct (Z.ltb_spec idx (Z.of_nat len)); [lia|done].
Qed.

Lemma subscript_ge {A} (seq : list A) (idx : Z) :
  (Z.of_nat (length seq) ≤ idx)%Z → subscript seq idx = Raise IndexError.
Proof. intros Hge. unfold subscript. by rewrite norm_index_ge. Qed.

Lemma subscript_below {A} (seq : list A) (idx : Z) :
  (idx < - Z.of_nat (length seq))%Z → subscript seq idx = Raise IndexError.
Proof.
  intros Hlt. unfold subscript, norm_index.
  destruct (Z.leb_spec 0 idx); [lia|].
  by destruct (Z.leb_spec 0 (idx + Z.of_nat (length seq))); [lia|].
Qed.

Lemma norm_index_negative (len : nat) (idx : Z) :
  (idx < 0)%Z → (- Z.of_nat len ≤ idx)%Z →
  norm_index len idx = Some (Z.to_nat (Z.of_nat len + idx)).
Proof.
  intros Hneg Hlow. unfold norm_index.
  destruct (Z.leb_spec 0 idx); [lia|].
  destruct (Z.leb_spec 0 (idx + Z.of_nat len)); [|lia].
  by rewrite Z.add_comm.
Qed.

Lemma subscript_negative {A} (seq : list A) (idx : Z) :
  (idx < 0)%Z → (- Z.of_nat (length seq) ≤ idx)%Z →
  ∃ x, seq !! Z.to_nat (Z.of_nat (length seq) + idx) = Some x ∧
       subscript seq idx = Ok (Z.to_nat (Z.of_nat (length seq) + idx), x).
Proof.
  intros Hneg Hlow. unfold subscript.
  rewrite norm_index_negative by done.
  destruct (lookup_lt_is_Some_2 seq (Z.to_nat (Z.of_nat (length seq) + idx)))
    as [x Hx]; [lia|].
  exists x. by rewrite Hx.
Qed.

Lemma subscript_minus_one {A} (seq : list A) (x : A) :
  last seq = Some x → subscript seq (-1) = Ok (length seq - 1, x).
Proof.
  intros Hlast.
  assert (length seq ≠ 0) by (destruct seq; [done|simpl; lia]).
  destruct (subscript_negative seq (-1)) as (y & Hy & ->); [lia|lia|].
  replace (Z.to_nat (Z.of_nat (length seq) + -1)) with (length seq - 1)
    in * by lia.
  rewrite last_lookup in Hlast.
  replace (Nat.pred (length seq)) with (length seq - 1) in Hlast by lia.
  congruence.
Qed.

(** ** Undo and redo by index *)

Section History_facts.
Context `{E : AnalysisEngine}.

(** C1: with an index at or beyond the length of its list, [undo] (resp.
    [redo]) raises [IndexError] and leaves the whole world, both lists
    and the project included, exactly as it was; so it does with an index
    below minus the length. *)
Theorem undo_redo_out_of_range (w : World) (idx : Z) :
  ((Z.of_nat (length (undo_list (proj w))) ≤ idx)%Z →
     undo idx w = (Raise IndexError, w)) ∧
  ((Z.of_nat (length (redo_list (proj w))) ≤ idx)%Z →
     redo idx w = (Raise IndexError, w)) ∧
  ((idx < - Z.of_nat (length (undo_list (proj w))))%Z →
     undo idx w = (Raise IndexError, w)) ∧
  ((idx < - Z.of_nat (length (redo_list (proj w))))%Z →
     redo idx w = (Raise IndexError, w)).
Proof.
  repeat split; intros Hidx; unfold undo, redo, bind, history_entry.
  - by rewrite subscript_ge.
  - by rewrite subscript_ge.
  - by rewrite subscript_below.
  - by rewrite subscript_below.
Qed.

(** C10: a negative index within range does not raise [IndexError]: the
    subscript counts from the end of the list and [undo] (resp. [redo],
    [_history_info]) goes on with the entry it selects; for [-1] on a
    non-empty list that is the last entry of the list. *)
Theorem negative_index_selects_from_end (w : World) :
  (∀ idx, (idx < 0)%Z →
     (- Z.of_nat (length (undo_list (proj w))) ≤ idx)%Z →
     ∃ c, let i := Z.to_nat (Z.of_nat (length (undo_list (proj w))) + idx) in
          undo_list (proj w) !! i = Some c ∧
          undo idx w = History_undo i c w) ∧
  (∀ idx, (idx < 0)%Z →
     (- Z.of_nat (length (redo_list (proj w))) ≤ idx)%Z →
     ∃ c, let i := Z.to_nat (Z.of_nat (length (redo_list (proj w))) + idx) in
          redo_list (proj w) !! i = Some c ∧
          redo idx w = History_redo i c w) ∧
  (∀ c, last (undo_list (proj w)) = Some c →
     undo (-1) w = History_undo (length (undo_list (proj w)) - 1) c w) ∧
  (∀ c, last (redo_list (proj w)) = Some c →
     redo (-1) w = History_redo (length (redo_list (proj w)) - 1) c w) ∧
  (∀ seq c, last seq = Some c →
     _history_info seq (-1) =
       Ok {| info_description := description c;
             info_time := time c;
             info_full_change := full_description c;
             info_changes := map change_contents (changes c) |}).
Proof.
  repeat split.
  - intros idx Hneg Hlow.
    destruct (subscript_negative (undo_list (proj w)) idx) as (c & Hc & Hs);
      [done..|].
    exists c. split; [done|]. unfold undo, bind, history_entry. by rewrite Hs.
  - intros idx Hneg Hlow.
    destruct (subscript_negative (redo_list (proj w)) idx) as (c & Hc & Hs);
      [done..|].
    exists c. split; [done|]. unfold redo, bind, history_entry. by rewrite Hs.
  - intros c Hlast. unfold undo, bind, history_entry.
    by rewrite (subscript_minus_one _ _ Hlast).
  - intros c Hlast. unfold redo, bind, history_entry.
    by rewrite (subscript_minus_one _ _ Hlast).
  - intros seq c Hlast. unfold _history_info, getitem.
    by rewrite (subscript_minus_one _ _ Hlast).
Qed.

End History_facts.

(** ** Refactorings and the history *)

Section Refactoring_facts.
Context `{E : AnalysisEngine}.

Lemma _to_relative_path_world p w :
  (_to_relative_path p w).2 = w.
Proof. unfold _to_relative_path, lift, ret. by case_match. Qed.

Lemma compute_apply_outcome (msg : string)
    (compute : Contents → result ChangeSet) (w : World) :
  (∀ cs, compute (contents (proj w)) = Ok cs →
         computed cs (contents (proj w))) →
  outcome w
    (try_log_raise msg (bind (engine compute) Project_do) w).1
    (try_log_raise msg (bind (engine compute) Project_do) w).2.
Proof.
  intros Hcomputed. unfold try_log_raise, bind, engine, Project_do, set_proj.
  destruct (compute (contents (proj w))) as [cs|e] eqn:Hc; simpl.
  - destruct (apply_changes cs (contents (proj w))) as [[[]|e] c'] eqn:Ha;
      simpl.
    + by apply applied_and_recorded; [apply Hcomputed|].
    + destruct (is_exception e); by eapply raised_in_apply.
  - destruct (is_exception e); by apply raised_before_apply.
Qed.

Lemma bind_outcome {A} (m : M A) (k : A → M unit) (w : World) :
  (m w).2 = w →
  (∀ a, (m w).1 = Ok a → outcome w (k a w).1 (k a w).2) →
  outcome w (bind m k w).1 (bind m k w).2.
Proof.
  unfold bind. destruct (m w) as [[a|e] w0]; simpl; intros -> Hk.
  - by apply Hk.
  - by apply raised_before_apply.
Qed.

Lemma perform_outcome (op : Refactoring) (w : World) :
  outcome w (perform op w).1 (perform op w).2.
Proof.
  destruct op as [name p s e|name p s e|name p offset]; simpl;
    unfold extract_method, extract_variable, _extract, rename.
  all: apply bind_outcome; [apply _to_relative_path_world|intros p' _].
  all: apply bind_outcome; [done|intros res _].
  all: apply bind_outcome; [done|intros obj _].
  all: apply compute_apply_outcome; intros cs Hcs.
  - left. eauto.
  - left. eauto.
  - right. eauto.
Qed.

(** C4: a refactoring call that returns has pushed exactly one change set
    to the front of [undo_list] and left [redo_list] empty, whatever the
    two lists held before. *)
Theorem applied_refactoring_pushes_one (op : Refactoring) (w w' : World) :
  perform op w = (Ok tt, w') →
  ∃ cs, undo_list (proj w') = cs :: undo_list (proj w) ∧
        redo_list (proj w') = [].
Proof.
  intros Hop. pose proof (perform_outcome op w) as Hout.
  rewrite Hop in Hout. simpl in Hout.
  inversion Hout; subst. by eexists.
Qed.

End Refactoring_facts.

(** ** Undoing a sequence of refactorings *)

Section Undo_facts.
Context `{E : AnalysisEngine}.

Lemma applied_chain_snoc l cs c0 c1 c :
  apply_changes cs c0 = (Ok tt, c1) →
  applied_chain l c1 c →
  applied_chain (l ++ [cs]) c0 c.
Proof.
  intros Hcs. revert c. induction l as [|cs' l IH]; simpl; intros c.
  - intros ->. by exists c0.
  - intros (c_mid & Hchain & Happly). exists c_mid. split; [by apply IH|done].
Qed.

Lemma perform_all_chain (ops : list Refactoring) :
  ∀ w w1, perform_all ops w = (Ok tt, w1) →
    ∃ l, length l = length ops ∧
         undo_list (proj w1) = l ++ undo_list (proj w) ∧
         applied_chain l (contents (proj w)) (contents (proj w1)) ∧
         (ops = [] → w1 = w) ∧
         (ops ≠ [] → redo_list (proj w1) = []).
Proof.
  induction ops as [|op ops IH]; simpl; intros w w1 Hrun.
  - exists []. unfold ret in Hrun. by simplify_eq.
  - unfold bind in Hrun. pose proof (perform_outcome op w) as Hout.
    destruct (perform op w) as [[[]|e] w0]; [|done].
    simpl in Hout. inversion Hout as [cs c' Hcs Happly| |]; subst.
    destruct (IH _ _ Hrun) as (l & Hlen & Hundo & Hchain & Hnil & Hcons).
    simpl in *. exists (l ++ [cs]). repeat split.
    + rewrite length_app. simpl. lia.
    + by rewrite <- app_assoc.
    + by eapply applied_chain_snoc.
    + done.
    + intros _. destruct ops as [|op' ops]; [by rewrite Hnil|by apply Hcons].
Qed.

Lemma undo_times_chain (Hinv : invertible) (l : list ChangeSet) :
  ∀ w c0 u0,
    undo_list (proj w) = l ++ u0 →
    applied_chain l c0 (contents (proj w)) →
    ∃ w2, undo_times (length l) w = (Ok tt, w2) ∧
          contents (proj w2) = c0 ∧
          undo_list (proj w2) = u0 ∧
          length (redo_list (proj w2)) =
            length l + length (redo_list (proj w)).
Proof.
  induction l as [|cs l IH]; simpl; intros w c0 u0 Hundo Hchain.
  - exists w. by rewrite Hundo.
  - destruct Hchain as (c_mid & Hchain & Happly).
    apply Hinv in Happly.
    unfold bind at 1, undo, bind, history_entry, History_undo, set_proj.
    rewrite Hundo. simpl. rewrite Happly.
    match goal with
    | |- ∃ w2, undo_times _ ?w' = _ ∧ _ =>
        destruct (IH w' c0 u0) as (w2 & Hrun & Hc & Hu & Hr);
        [done|done|exists w2]
    end.
    rewrite Hr. simpl. repeat split; [done..|lia].
Qed.

(** C3: after [N] refactoring calls that all return, made on a project
    with an empty history, [N] calls of [undo(0)] all return and leave
    the contents of the project as they were before the sequence, an
    empty [undo_list] and a [redo_list] of length [N] (the engine's
    inverse change sets undoing what the change sets did). *)
Theorem undo_all_restores (Hinv : invertible)
    (ops : list Refactoring) (w w1 : World) :
  undo_list (proj w) = [] →
  redo_list (proj w) = [] →
  perform_all ops w = (Ok tt, w1) →
  ∃ w2, undo_times (length ops) w1 = (Ok tt, w2) ∧
        contents (proj w2) = contents (proj w) ∧
        undo_list (proj w2) = [] ∧
        length (redo_list (proj w2)) = length ops.
Proof.
  intros Hu Hr Hrun.
  destruct (perform_all_chain _ _ _ Hrun)
    as (l & Hlen & Hundo & Hchain & Hnil & Hcons).
  destruct (undo_times_chain Hinv l w1 (contents (proj w)) [])
    as (w2 & Hrun2 & Hc & Hu2 & Hr2).
  { by rewrite Hundo, Hu. }
  { done. }
  exists w2. rewrite <- Hlen. repeat split; [done..|].
  rewrite Hr2. destruct ops as [|op ops].
  - rewrite Hnil, Hr by done. simpl. lia.
  - rewrite Hcons by done. simpl. lia.
Qed.

End Undo_facts.

(** ** Definition lookup *)

Section Lookup_facts.
Context `{E : AnalysisEngine}.

(** An answer with a resource and no line is passed on as it is, resource
    object included. *)
Lemma get_definition_location_passes_on
    (code : string) (offset : Z) (p p' : string) (w : World)
    (res r : Resource) :
  (_to_relative_path p w).1 = Ok p' →
  get_resource (root (proj w)) p' = Ok res →
  codeassist_get_definition_location (contents (proj w)) code offset res
    = Ok (Some r, None) →
  (get_definition_location code offset p w).1 = Ok (LResource r, None).
Proof.
  intros Hp Hres Hengine.
  unfold get_definition_location, bind, proj_get_resource.
  pose proof (_to_relative_path_world p w) as Hw.
  destruct (_to_relative_path p w) as [r0 w0]. simpl in Hp, Hw. subst.
  unfold lift, engine, ret. by rewrite Hres, Hengine.
Qed.

End Lookup_facts.

(** ** The entry point *)

(** C9: [main] needs the project directory (argparse exits without it),
    lets the port default to 0, and maps verbosity 0, 1, 2 to [WARNING],
    [INFO], [DEBUG]; the default verbosity is 0 and any other verbosity is
    a [KeyError]. *)
Theorem main_arguments :
  (∀ argv, server.arg_project argv = None →
     server.main argv = Raise (SystemExit 2)) ∧
  (∀ argv d level,
     server.arg_project argv = Some d →
     server.level_of (default 0%Z (server.arg_verbosity argv)) = Ok level →
     server.main argv =
       Ok {| server.launch_level := level;
             server.launch_project := d;
             server.launch_port := default 0%Z (server.arg_port argv) |}) ∧
  server.level_of 0 = Ok server.WARNING ∧
  server.level_of 1 = Ok server.INFO ∧
  server.level_of 2 = Ok server.DEBUG ∧
  (∀ v, v ≠ 0%Z → v ≠ 1%Z → v ≠ 2%Z → server.level_of v = Raise KeyError) ∧
  (∀ argv d v,
     server.arg_project argv = Some d →
     server.arg_verbosity argv = Some v →
     v ≠ 0%Z → v ≠ 1%Z → v ≠ 2%Z →
     server.main argv = Raise KeyError).
Proof.
  assert (Hother : ∀ v, v ≠ 0%Z → v ≠ 1%Z → v ≠ 2%Z →
                        server.level_of v = Raise KeyError).
  { intros v H0 H1 H2. unfold server.level_of, server.levels.
    by rewrite !lookup_insert_ne, lookup_empty. }
  repeat split; try done.
  - intros argv Hp. unfold server.main, server.parse_args. by rewrite Hp.
  - intros argv d level Hp Hl. unfold server.main, server.parse_args.
    rewrite Hp. simpl. by rewrite Hl.
  - intros argv d v Hp Hv H0 H1 H2. unfold server.main, server.parse_args.
    rewrite Hp, Hv. simpl. by rewrite Hother.
Qed.

(** ** Paths *)

Module posixpath_facts.
Import posixpath.

Lemma append_nil_l (b : string) : "" +:+ b = b.
Proof. reflexivity. Qed.

Lemma append_cons (x : ascii) (a b : string) :
  String x a +:+ b = String x (a +:+ b).
Proof. reflexivity. Qed.

Lemma append_assoc (a b c : string) : (a +:+ b) +:+ c = a +:+ b +:+ c.
Proof.
  induction a as [|x a IH]; [done|]. by rewrite !append_cons, IH.
Qed.

Lemma append_empty_r (a : string) : a +:+ "" = a.
Proof.
  induction a as [|x a IH]; [done|]. by rewrite append_cons, IH.
Qed.

Lemma eqb_empty (s : string) : String.eqb s "" = bool_decide (s = "").
Proof. by destruct s. Qed.

Lemma split_not_nil (s : string) : split s ≠ [].
Proof.
  induction s as [|c s IH]; simpl; [done|].
  destruct (is_sep c); [done|]. by destruct (split s).
Qed.

Lemma split_no_sep (s : string) :
  Forall (λ c, has_sep c = false) (split s).
Proof.
  induction s as [|c s IH]; simpl.
  - by constructor.
  - destruct (is_sep c) eqn:Hc; [by constructor|].
    destruct (split s) as [|h t]; inversion IH; subst;
      constructor; simpl; rewrite ?Hc; auto.
Qed.

Lemma nonempty_comps_component (s : string) :
  Forall component (nonempty_comps s).
Proof.
  unfold nonempty_comps. apply Forall_forall. intros c Hc.
  apply list_elem_of_filter in Hc as [Hne Hin]. split; [done|].
  pose proof (split_no_sep s) as Hall.
  by eapply Forall_forall in Hall.
Qed.

Lemma component_pardir : component pardir.
Proof. by split. Qed.

Lemma component_startswith (c : string) :
  component c → startswith_sep c = false.
Proof.
  intros [Hne Hsep]. destruct c as [|x c]; [done|]. simpl in *.
  by apply orb_false_iff in Hsep as [-> _].
Qed.

Lemma no_sep_endswith (c : string) : has_sep c = false → endswith_sep c = false.
Proof.
  induction c as [|x c IH]; simpl; [done|]. intros Hsep.
  apply orb_false_iff in Hsep as [Hx Hc]. destruct c; [done|by apply IH].
Qed.

Lemma endswith_append (a b : string) :
  b ≠ "" → endswith_sep (a +:+ b) = endswith_sep b.
Proof.
  intros Hb. induction a as [|x a IH]; [done|].
  rewrite append_cons. simpl.
  destruct (a +:+ b) eqn:Hab; [|done].
  destruct a; [by rewrite append_nil_l in Hab|by rewrite append_cons in Hab].
Qed.

Lemma startswith_append (a b : string) :
  a ≠ "" → startswith_sep (a +:+ b) = startswith_sep a.
Proof. by destruct a. Qed.

Lemma sep_join_cons (a : string) (p : list string) :
  sep_join (a :: p) = a +:+ sep_tail p.
Proof.
  revert a. induction p as [|c p IH]; intros a.
  - simpl. by rewrite append_empty_r.
  - change (sep_join (a :: c :: p)) with (a +:+ sep +:+ sep_join (c :: p)).
    by rewrite IH.
Qed.

Lemma join_components (a : string) (p : list string) :
  a ≠ "" → endswith_sep a = false → Forall component p →
  join a p = a +:+ sep_tail p.
Proof.
  unfold join. revert a. induction p as [|c p IH]; intros a Ha Hend Hp.
  - simpl. by rewrite append_empty_r.
  - inversion Hp as [|? ? Hc Hp']; subst.
    change (fold_left join_step (c :: p) a)
      with (fold_left join_step p (join_step a c)).
    unfold join_step. rewrite (component_startswith c Hc).
    rewrite eqb_empty, bool_decide_eq_false_2, Hend by done. simpl orb.
    cbv iota. rewrite IH.
    + change (sep_tail (c :: p)) with (sep +:+ c +:+ sep_tail p).
      by rewrite !append_assoc.
    + by destruct a.
    + rewrite <- (append_assoc a sep c), endswith_append by apply Hc.
      apply no_sep_endswith, Hc.
    + done.
Qed.

Lemma join_component_list (a : string) (p : list string) :
  Forall component (a :: p) → join a p = sep_join (a :: p).
Proof.
  intros Hall. inversion Hall as [|? ? Ha Hp]; subst.
  rewrite sep_join_cons. apply join_components; [apply Ha| |done].
  apply no_sep_endswith, Ha.
Qed.

Lemma rel_list_components (cwd p start : string) :
  Forall component (rel_list cwd p start).
Proof.
  unfold rel_list. apply Forall_app. split.
  - apply Forall_replicate, component_pardir.
  - apply Forall_drop, nonempty_comps_component.
Qed.

Lemma isabs_join (a : string) (p : list string) :
  Forall component (a :: p) → isabs (join a p) = false.
Proof.
  intros Hall. inversion Hall as [|? ? Ha Hp]; subst.
  rewrite join_components; [|apply Ha|apply no_sep_endswith, Ha|done].
  unfold isabs. rewrite startswith_append by apply Ha.
  by apply component_startswith.
Qed.

(** [relpath] returns for every non-empty path, and what it returns is
    not an absolute path. *)
Lemma relpath_relative (cwd p start : string) :
  p ≠ "" → ∃ q, relpath cwd p start = Ok q ∧ isabs q = false.
Proof.
  intros Hp. unfold relpath.
  rewrite eqb_empty, bool_decide_eq_false_2 by done.
  pose proof (rel_list_components cwd p start) as Hall.
  destruct (rel_list cwd p start) as [|a l].
  - by exists curdir.
  - exists (join a l). split; [done|by apply isabs_join].
Qed.

Lemma isabs_nonempty (p : string) : isabs p = true → p ≠ "".
Proof. by destruct p. Qed.

(** *** Splitting what was joined *)

Lemma split_no_sep_id (c : string) : has_sep c = false → split c = [c].
Proof.
  induction c as [|x c IH]; [done|]. simpl. intros Hsep.
  apply orb_false_iff in Hsep as [-> Hc]. by rewrite IH.
Qed.

Lemma split_append_sep (c s : string) :
  has_sep c = false → split (c +:+ sep +:+ s) = c :: split s.
Proof.
  induction c as [|x c IH]; [done|]. simpl has_sep. intros Hsep.
  apply orb_false_iff in Hsep as [Hx Hc].
  rewrite append_cons. simpl. by rewrite Hx, IH.
Qed.

Lemma split_sep_join (comps : list string) :
  comps ≠ [] → Forall component comps → split (sep_join comps) = comps.
Proof.
  induction comps as [|c comps IH]; [done|]. intros _ Hall.
  inversion Hall as [|? ? Hc Hrest]; subst.
  destruct comps as [|c' comps].
  - apply split_no_sep_id, Hc.
  - change (sep_join (c :: c' :: comps))
      with (c +:+ sep +:+ sep_join (c' :: comps)).
    rewrite split_append_sep by apply Hc. by rewrite IH.
Qed.

Lemma nonempty_comps_sep_join (comps : list string) :
  Forall component comps → nonempty_comps (sep_join comps) = comps.
Proof.
  intros Hall. unfold nonempty_comps. destruct comps as [|c comps]; [done|].
  rewrite split_sep_join by done.
  induction Hall as [|x l Hx Hl IH]; [done|].
  rewrite filter_cons_True by apply Hx. by rewrite IH.
Qed.

Lemma nonempty_comps_repeat_sep (k : nat) (s : string) :
  nonempty_comps (repeat_sep k +:+ s) = nonempty_comps s.
Proof.
  induction k as [|k IH]; [done|].
  change (repeat_sep (S k)) with (sep +:+ repeat_sep k).
  rewrite append_assoc. unfold nonempty_comps in *.
  change (split (sep +:+ repeat_sep k +:+ s))
    with ("" :: split (repeat_sep k +:+ s)).
  by rewrite filter_cons_False by (by intros []).
Qed.

(** *** Normalised components *)

Lemma removelast_take {A} (l : list A) :
  removelast l = take (length l - 1) l.
Proof.
  induction l as [|x l IH]; [done|]. destruct l as [|y l]; [done|].
  change (removelast (x :: y :: l)) with (x :: removelast (y :: l)).
  rewrite IH. simpl. by rewrite Nat.sub_0_r.
Qed.

Lemma norm_step_invariant (k : nat) (acc : list string) (comp : string) :
  has_sep comp = false →
  Forall component acc → (k ≠ 0 → pardir ∉ acc) →
  Forall component (norm_step k acc comp) ∧
  (k ≠ 0 → pardir ∉ norm_step k acc comp).
Proof.
  intros Hsep Hacc Hpar. unfold norm_step.
  destruct (String.eqb_spec comp "") as [->|Hne]; [done|]. simpl orb.
  destruct (String.eqb_spec comp curdir) as [->|Hdot]; [done|].
  destruct (String.eqb_spec comp pardir) as [->|Hcomp]; simpl negb; simpl orb.
  - destruct (Nat.eqb_spec k 0) as [->|Hk]; simpl andb.
    + destruct (Nat.eqb_spec (length acc) 0); simpl.
      * split; [|done]. apply Forall_app. by split; [|repeat constructor].
      * case_bool_decide.
        -- split; [|done]. apply Forall_app. by split; [|repeat constructor].
        -- rewrite removelast_take. split; [by apply Forall_take|done].
    + destruct (Nat.eqb_spec (length acc) 0); simpl.
      * rewrite removelast_take. split; [by apply Forall_take|].
        intros _ Hin. by apply (Hpar Hk), (subseteq_take (length acc - 1)).
      * case_bool_decide as Hlast.
        -- exfalso. apply (Hpar Hk). apply last_Some in Hlast as [l' ->].
           apply elem_of_app. right. by left.
        -- rewrite removelast_take. split; [by apply Forall_take|].
           intros _ Hin. by apply (Hpar Hk), (subseteq_take (length acc - 1)).
  - split.
    + apply Forall_app. split; [done|]. by repeat constructor.
    + intros Hk Hin. apply elem_of_app in Hin as [Hin|Hin].
      * by apply (Hpar Hk).
      * apply list_elem_of_singleton in Hin. by subst.
Qed.

Lemma norm_fold_invariant (k : nat) (comps acc : list string) :
  Forall (λ c, has_sep c = false) comps →
  Forall component acc → (k ≠ 0 → pardir ∉ acc) →
  Forall component (fold_left (norm_step k) comps acc) ∧
  (k ≠ 0 → pardir ∉ fold_left (norm_step k) comps acc).
Proof.
  revert acc. induction comps as [|c comps IH]; intros acc Hcomps Hacc Hpar.
  - done.
  - inversion Hcomps; subst. simpl.
    destruct (norm_step_invariant k acc c) as [Hacc' Hpar']; [done..|].
    by apply IH.
Qed.

Lemma isabs_initial_slashes (p : string) :
  isabs p = true → initial_slashes p ≠ 0.
Proof.
  destruct p as [|c1 [|c2 [|c3 p]]]; simpl; [done|..]; intros ->; [done|..].
  - by destruct (is_sep c2).
  - by destruct (is_sep c2), (is_sep c3).
Qed.

(** The components of an absolute path after [abspath]: those that
    [normpath] kept, none of them ['..']. *)
Lemma abspath_absolute_comps (cwd p : string) :
  isabs p = true →
  nonempty_comps (abspath cwd p) = norm_comps p ∧ pardir ∉ norm_comps p.
Proof.
  intros Habs. pose proof (isabs_initial_slashes p Habs) as Hk.
  destruct (norm_fold_invariant (initial_slashes p) (split p) [])
    as [Hcomp Hpar]; [apply split_no_sep|done|by intros _ ?%elem_of_nil|].
  fold (norm_comps p) in Hcomp, Hpar. split; [|by apply Hpar].
  unfold abspath, normpath. rewrite Habs.
  rewrite eqb_empty, bool_decide_eq_false_2 by by apply isabs_nonempty.
  cbv zeta. rewrite eqb_empty, bool_decide_eq_false_2.
  - rewrite nonempty_comps_repeat_sep. by apply nonempty_comps_sep_join.
  - destruct (initial_slashes p); [done|].
    change (repeat_sep (S n)) with (sep +:+ repeat_sep n).
    by rewrite append_assoc.
Qed.

(** *** The common prefix *)

Lemma commonprefix_length (l1 l2 : list string) :
  length (commonprefix l1 l2) ≤ length l1.
Proof.
  revert l2. induction l1 as [|x l1 IH]; intros [|y l2]; simpl; try lia.
  destruct (String.eqb x y); simpl; [|lia]. specialize (IH l2). lia.
Qed.

Lemma commonprefix_prefix (l1 l2 : list string) :
  l1 `prefix_of` l2 → commonprefix l1 l2 = l1.
Proof.
  intros [k ->]. induction l1 as [|x l1 IH]; simpl; [by destruct k|].
  by rewrite String.eqb_refl, IH.
Qed.

Lemma commonprefix_full (l1 l2 : list string) :
  length (commonprefix l1 l2) = length l1 → l1 `prefix_of` l2.
Proof.
  revert l2. induction l1 as [|x l1 IH]; intros l2 Hlen.
  - apply prefix_nil.
  - destruct l2 as [|y l2]; [done|]. simpl in Hlen.
    destruct (String.eqb_spec x y) as [->|]; [|done].
    apply prefix_cons, IH. simpl in Hlen. lia.
Qed.

(** *** What [relpath] returns for an absolute path *)

Lemma relpath_split (cwd p start : string) :
  p ≠ "" →
  ∃ q, relpath cwd p start = Ok q ∧
       ((rel_list cwd p start = [] ∧ q = curdir) ∨
        (rel_list cwd p start ≠ [] ∧ split q = rel_list cwd p start)).
Proof.
  intros Hp. unfold relpath.
  rewrite eqb_empty, bool_decide_eq_false_2 by done.
  pose proof (rel_list_components cwd p start) as Hall.
  destruct (rel_list cwd p start) as [|a l] eqn:Hrel.
  - exists curdir. split; [done|by left].
  - exists (join a l). split; [done|right]. split; [done|].
    rewrite join_component_list by done. by apply split_sep_join.
Qed.

Lemma relpath_absolute (cwd p start : string) :
  isabs p = true →
  ∃ q, relpath cwd p start = Ok q ∧
       Forall component (split q) ∧
       (under cwd start p → pardir ∉ split q) ∧
       (¬ under cwd start p → begins_with_pardir q).
Proof.
  intros Habs.
  destruct (relpath_split cwd p start) as (q & Hq & Hsplit);
    [by apply isabs_nonempty|].
  exists q. split; [done|].
  destruct (abspath_absolute_comps cwd p Habs) as [Hcomps Hpar].
  pose proof (rel_list_components cwd p start) as Hall.
  repeat split.
  - destruct Hsplit as [[_ ->]|[_ ->]]; [|done].
    by repeat constructor.
  - intros Hunder. destruct Hsplit as [[_ ->]|[_ ->]].
    + by intros ?%list_elem_of_singleton.
    + unfold rel_list. rewrite (commonprefix_prefix _ _ Hunder).
      rewrite Nat.sub_diag. simpl. rewrite Hcomps.
      intros Hin. apply Hpar. by eapply subseteq_drop.
  - intros Hnot. unfold begins_with_pardir.
    assert (length (commonprefix (nonempty_comps (abspath cwd start))
                      (nonempty_comps (abspath cwd p)))
            < length (nonempty_comps (abspath cwd start))) as Hlt.
    { pose proof (commonprefix_length (nonempty_comps (abspath cwd start))
                    (nonempty_comps (abspath cwd p))) as Hle.
      destruct (decide (length (commonprefix
                                  (nonempty_comps (abspath cwd start))
                                  (nonempty_comps (abspath cwd p)))
                        = length (nonempty_comps (abspath cwd start))))
        as [Heq|Hne]; [|lia].
      by apply commonprefix_full in Heq. }
    assert (∃ l, rel_list cwd p start = pardir :: l) as [l Hl].
    { unfold rel_list.
      destruct (length (nonempty_comps (abspath cwd start))
                - length (commonprefix (nonempty_comps (abspath cwd start))
                            (nonempty_comps (abspath cwd p))))
        as [|n] eqn:Hn; [lia|].
      simpl. eauto. }
    destruct Hsplit as [[Hnil _]|[_ ->]]; [congruence|]. by rewrite Hl.
Qed.

End posixpath_facts.



Section Path_facts.
Context `{E : AnalysisEngine}.
Import posixpath posixpath_facts.

(** C6: a relative path is returned as it is, and resolving any path
    returns a path that resolves to itself. *)
Theorem _to_relative_path_idempotent (p : string) (w : World) :
  (isabs p = false → _to_relative_path p w = (Ok p, w)) ∧
  ∃ q, _to_relative_path p w = (Ok q, w) ∧
       _to_relative_path q w = (Ok q, w).
Proof.
  split.
  - intros Hrel. unfold _to_relative_path. by rewrite Hrel.
  - unfold _to_relative_path at 1. destruct (isabs p) eqn:Habs.
    + destruct (relpath_relative (cwd w) p (real_path (root (proj w))))
        as (q & Hq & Hrel); [by apply isabs_nonempty|].
      exists q. unfold lift. rewrite Hq. split; [done|].
      unfold _to_relative_path. by rewrite Hrel.
    + exists p. split; [done|]. unfold _to_relative_path. by rewrite Habs.
Qed.

(** C5, as amended: a relative path is returned as it is; an absolute
    path is resolved to non-empty components joined by single slashes,
    with no ['..'] among them when the path lies under the project root
    and with ['..'] as the first of them when it does not. *)
Theorem _to_relative_path_under_root (p : string) (w : World) :
  (isabs p = false → _to_relative_path p w = (Ok p, w)) ∧
  (isabs p = true →
   ∃ q, _to_relative_path p w = (Ok q, w) ∧
        Forall component (split q) ∧
        (under (cwd w) (real_path (root (proj w))) p → pardir ∉ split q) ∧
        (¬ under (cwd w) (real_path (root (proj w))) p →
         begins_with_pardir q)).
Proof.
  split; intros Habs; unfold _to_relative_path; rewrite Habs; [done|].
  destruct (relpath_absolute (cwd w) p (real_path (root (proj w))) Habs)
    as (q & Hq & Hrest).
  exists q. unfold lift. by rewrite Hq.
Qed.

End Path_facts.

(** C5, as stated, fails: an absolute path outside the project root, with
    no ['..'] in it, is resolved to a path that begins with ['..']. *)
Lemma _to_relative_path_escapes :
  (posixpath.pardir ∉ posixpath.split "/etc/passwd") ∧
  (_to_relative_path "/etc/passwd" (counter.world 0 [] [])
     = (Ok "../etc/passwd", counter.world 0 [] [])) ∧
  posixpath.begins_with_pardir "../etc/passwd".
Proof.
  split; [|split].
  - intros Hin. by repeat (apply elem_of_cons in Hin as [?|Hin]; [done|]);
      apply elem_of_nil in Hin.
  - vm_compute. reflexivity.
  - reflexivity.
Qed.


(** ** The resource tree *)

Section Tree_facts.

Lemma find_resource_folder (p q rp : string) (cs : list Resource) :
  find_resource p (Folder q rp cs) =
    if String.eqb q p then Some (Folder q rp cs) else find_among p cs.
Proof.
  simpl. destruct (String.eqb q p); [done|].
  induction cs as [|c cs IH]; [done|]. simpl. by rewrite IH.
Qed.

Lemma all_resources_unfold (r : Resource) :
  all_resources r = r :: flat_map all_resources (get_children r).
Proof.
  destruct r as [p rp|p rp cs]; [done|]. simpl. by f_equal.
Qed.

Lemma height_child (p rp : string) (cs : list Resource) (c : Resource) :
  c ∈ cs → height c < height (Folder p rp cs).
Proof.
  simpl. induction cs as [|c' cs IH]; intros Hin.
  - by apply elem_of_nil in Hin.
  - apply elem_of_cons in Hin as [->|Hin]; [lia|].
    specialize (IH Hin). lia.
Qed.

Lemma find_resource_absent (p : string) (r : Resource) :
  p ∉ map path (all_resources r) → find_resource p r = None.
Proof.
  induction r as [q rp|q rp cs IH] using Resource_ind; intros Hnot.
  - simpl in *. destruct (String.eqb_spec q p) as [->|]; [|done].
    exfalso. apply Hnot. by left.
  - rewrite find_resource_folder. rewrite all_resources_unfold in Hnot.
    simpl in Hnot. destruct (String.eqb_spec q p) as [->|_].
    { exfalso. apply Hnot. by left. }
    apply not_elem_of_cons in Hnot as [_ Hnot].
    induction IH as [|c cs Hc _ IHcs]; [done|]. simpl in *.
    rewrite map_app in Hnot. apply not_elem_of_app in Hnot as [Hc' Hcs'].
    rewrite (Hc Hc'). by apply IHcs.
Qed.

Lemma find_resource_present (t r : Resource) :
  NoDup (map path (all_resources t)) →
  r ∈ all_resources t →
  find_resource (path r) t = Some r.
Proof.
  revert r. induction t as [q rp|q rp cs IH] using Resource_ind;
    intros r Hnodup Hin.
  - apply list_elem_of_singleton in Hin as ->. simpl.
    by rewrite String.eqb_refl.
  - rewrite find_resource_folder. rewrite all_resources_unfold in Hnodup, Hin.
    simpl in Hnodup, Hin. apply NoDup_cons in Hnodup as [Hq Hnodup].
    apply elem_of_cons in Hin as [->|Hin].
    { simpl. by rewrite String.eqb_refl. }
    destruct (String.eqb_spec q (path r)) as [->|_].
    { exfalso. apply Hq. by apply list_elem_of_fmap_2. }
    clear Hq. induction IH as [|c cs Hc _ IHcs].
    { by apply elem_of_nil in Hin. }
    simpl in *. rewrite map_app in Hnodup.
    apply NoDup_app in Hnodup as (Hc1 & Hdisj & Hcs1).
    apply elem_of_app in Hin as [Hin|Hin].
    + by rewrite (Hc r Hc1 Hin).
    + rewrite find_resource_absent.
      * by apply IHcs.
      * intros Hp. apply (Hdisj _ Hp). by apply list_elem_of_fmap_2.
Qed.

Lemma elem_of_flat_map {A B} (f : A → list B) (l : list A) (y : B) :
  y ∈ flat_map f l ↔ ∃ x, y ∈ f x ∧ x ∈ l.
Proof.
  rewrite list_elem_of_In, in_flat_map. split; intros (x & H1 & H2);
    exists x; by rewrite ?list_elem_of_In in *.
Qed.

(** A resource listed under [t] brings everything listed under it. *)
Lemma all_resources_trans (t r : Resource) :
  r ∈ all_resources t → all_resources r ⊆ all_resources t.
Proof.
  induction t as [q rp|q rp cs IH] using Resource_ind; intros Hin.
  - by apply list_elem_of_singleton in Hin as ->.
  - rewrite (all_resources_unfold (Folder q rp cs)) in *. simpl in *.
    apply elem_of_cons in Hin as [->|Hin].
    { by rewrite <- all_resources_unfold. }
    apply elem_of_flat_map in Hin as (c & Hr & Hc).
    eapply Forall_forall in IH; [|exact Hc].
    intros x Hx. right. apply elem_of_flat_map. exists c.
    split; [by apply IH|done].
Qed.

Lemma all_resources_child (t r c : Resource) :
  r ∈ all_resources t → c ∈ get_children r → c ∈ all_resources t.
Proof.
  intros Hr Hc. apply (all_resources_trans t r Hr).
  rewrite all_resources_unfold. right.
  apply elem_of_flat_map. exists c. split; [|done].
  rewrite all_resources_unfold. by left.
Qed.

Lemma all_resources_children (f : list Resource) :
  flat_map all_resources f
    ≡ₚ f ++ flat_map all_resources (flat_map get_children f).
Proof.
  induction f as [|r f IH]; [done|]. simpl.
  rewrite flat_map_app, all_resources_unfold, IH. simpl.
  apply Permutation_skip. by rewrite !app_assoc, (Permutation_app_comm f).
Qed.

(** *** Levels *)

Lemma at_depth_nil (d : nat) : at_depth d [] = [].
Proof. by induction d. Qed.

Lemma level_order_nil (n : nat) : level_order n [] = [].
Proof.
  unfold level_order. induction (seq 0 n) as [|d ds IH]; [done|].
  simpl. by rewrite at_depth_nil, IH.
Qed.

Lemma level_order_succ (n : nat) (f : list Resource) :
  level_order (S n) f = f ++ level_order n (flat_map get_children f).
Proof.
  unfold level_order. rewrite <- cons_seq. simpl. f_equal.
  rewrite <- fmap_S_seq. generalize (seq 0 n). intros ds.
  induction ds as [|d ds IH]; [done|]. csimpl. by rewrite IH.
Qed.

Lemma lower_children (n : nat) (f : list Resource) :
  Forall (λ r, height r < S n) f →
  Forall (λ r, height r < n) (flat_map get_children f).
Proof.
  intros Hf. apply Forall_forall. intros c Hc.
  apply elem_of_flat_map in Hc as (r & Hc & Hr).
  eapply Forall_forall in Hf; [|exact Hr]. simpl in Hf.
  destruct r as [p rp|p rp cs]; [by apply elem_of_nil in Hc|].
  pose proof (height_child p rp cs c Hc). lia.
Qed.

Lemma level_order_all (n : nat) (f : list Resource) :
  Forall (λ r, height r < n) f →
  level_order n f ≡ₚ flat_map all_resources f.
Proof.
  revert f. induction n as [|n IH]; intros f Hf.
  - destruct f as [|r f]; [done|]. inversion Hf; subst. lia.
  - rewrite level_order_succ, all_resources_children.
    by rewrite IH by by apply lower_children.
Qed.

(** *** The loop *)

Lemma prepend_nil (o : option (result (list (string * bool)))) :
  prepend [] o = o.
Proof. by destruct o as [[?|?]|]. Qed.

Lemma prepend_prepend xs ys (o : option (result (list (string * bool)))) :
  prepend xs (prepend ys o) = prepend (xs ++ ys) o.
Proof. destruct o as [[?|?]|]; simpl; [|done..]. by rewrite app_assoc. Qed.

Lemma loop_level (t : Resource) (cur : list Resource) :
  Forall (λ r, get_resource t (path r) = Ok r) cur →
  ∀ (todo : list string) (fuel : nat),
    get_all_resources_loop (length cur + fuel) t (map path cur ++ todo) =
      prepend (map info cur)
        (get_all_resources_loop fuel t
           (todo ++ map path (flat_map get_children cur))).
Proof.
  induction 1 as [|r cur Hr _ IH]; intros todo fuel.
  - simpl. by rewrite prepend_nil, app_nil_r.
  - simpl. rewrite Hr.
    assert ((if is_folder r
             then (map path cur ++ todo) ++ map path (get_children r)
             else map path cur ++ todo)
            = map path cur ++ todo ++ map path (get_children r)) as ->.
    { destruct r; simpl; [by rewrite app_nil_r|by rewrite app_assoc]. }
    rewrite IH, map_app, <- (app_assoc todo).
    by destruct (get_all_resources_loop fuel t _) as [[?|?]|].
Qed.

Lemma loop_level_order (t : Resource) (n : nat) :
  NoDup (map path (all_resources t)) →
  ∀ (f : list Resource) (fuel : nat),
    Forall (λ r, height r < n) f →
    Forall (λ r, r ∈ all_resources t) f →
    length (flat_map all_resources f) ≤ fuel →
    get_all_resources_loop fuel t (map path f)
      = Some (Ok (map info (level_order n f))).
Proof.
  intros Hnodup. induction n as [|n IH]; intros f fuel Hheight Hsub Hfuel.
  - destruct f as [|r f]; [by destruct fuel|]. inversion Hheight; subst. lia.
  - rewrite all_resources_children, length_app in Hfuel.
    replace fuel with (length f + (fuel - length f)) by lia.
    rewrite <- (app_nil_r (map path f)), loop_level.
    + simpl. rewrite IH.
      * simpl. by rewrite level_order_succ, map_app.
      * by apply lower_children.
      * apply Forall_forall. intros c Hc.
        apply elem_of_flat_map in Hc as (r & Hc & Hr).
        eapply Forall_forall in Hsub; [|exact Hr].
        by eapply all_resources_child.
      * lia.
    + eapply Forall_impl; [exact Hsub|]. intros r Hr. simpl in Hr.
      unfold get_resource. by rewrite find_resource_present.
Qed.

End Tree_facts.

(** C7: on a project whose resources form a tree with distinct paths, the
    loop finishes (given as many rounds as there are resources) and
    [get_all_resources] returns the pair [(path, is_folder)] of every
    resource of the tree, the root included, once each and in
    breadth-first order. *)
Theorem get_all_resources_breadth_first `{E : AnalysisEngine}
    (fuel : nat) (w : World) :
  well_formed (root (proj w)) →
  length (all_resources (root (proj w))) ≤ fuel →
  RopeInterface_get_all_resources fuel w
    = get_all_resources fuel (root (proj w)) ∧
  get_all_resources fuel (root (proj w))
    = Some (Ok (map info (breadth_first (root (proj w))))) ∧
  map info (breadth_first (root (proj w)))
    ≡ₚ map info (all_resources (root (proj w))) ∧
  NoDup (map info (breadth_first (root (proj w)))).
Proof.
  intros [Hroot Hnodup] Hfuel. set (t := root (proj w)) in *.
  assert (Forall (λ r, height r < S (height t)) [t]) as Hheight.
  { repeat constructor. }
  pose proof (level_order_all _ _ Hheight) as Hperm.
  simpl in Hperm. rewrite app_nil_r in Hperm.
  fold (breadth_first t) in Hperm.
  split; [done|]. split; [|split].
  - unfold get_all_resources. rewrite <- Hroot.
    apply (loop_level_order t (S (height t)) Hnodup [t]); [done| |].
    + repeat constructor. rewrite all_resources_unfold. by left.
    + simpl. by rewrite app_nil_r.
  - by rewrite Hperm.
  - apply (NoDup_fmap_1 fst). rewrite <- list_fmap_compose.
    change (fst ∘ info) with path. by rewrite Hperm.
Qed.

(** The tree of the spec's example: the listing starts with the root. *)
Example get_all_resources_fixture :
  get_all_resources 4
    (Folder "" "/proj"
       [Folder "a" "/proj/a" [File "a/b.py" "/proj/a/b.py"];
        File "c.py" "/proj/c.py"])
  = Some (Ok [("", true); ("a", true); ("c.py", false); ("a/b.py", false)]).
Proof. reflexivity. Qed.

(** ** The properties at work on the counter engine *)

Lemma counter_invertible : @invertible counter.engine.
Proof.
  intros cs c c'. simpl.
  destruct (Z.eqb_spec (time cs) 0) as [|Hne]; [done|].
  intros [= <-].
  destruct (Z.eqb_spec (- time cs) 0) as [|_]; [lia|].
  f_equal. lia.
Qed.

Lemma counter_atomic : @atomic counter.engine.
Proof.
  intros cs c e c'. simpl.
  destruct (Z.eqb_spec (time cs) 0); [|done]. by intros [= _ <-].
Qed.

Lemma counter_well_formed : well_formed counter.tree.
Proof.
  split; [done|]. simpl. apply NoDup_cons. split.
  - by intros ?%list_elem_of_singleton.
  - apply NoDup_singleton.
Qed.

Lemma undo_redo_out_of_range_witness :
  undo 1 (counter.world 7 [counter.change_set "f" 3] [])
    = (Raise IndexError, counter.world 7 [counter.change_set "f" 3] []) ∧
  redo 0 (counter.world 7 [counter.change_set "f" 3] [])
    = (Raise IndexError, counter.world 7 [counter.change_set "f" 3] []).
Proof.
  split.
  - apply (proj1 (undo_redo_out_of_range
                    (counter.world 7 [counter.change_set "f" 3] []) 1)).
    simpl. lia.
  - apply (proj1 (proj2 (undo_redo_out_of_range
                           (counter.world 7 [counter.change_set "f" 3] []) 0))).
    simpl. lia.
Defined.

Lemma negative_index_selects_from_end_witness :
  undo (-1) (counter.world 7 [counter.change_set "g" 4;
                              counter.change_set "f" 3] [])
  = History_undo 1 (counter.change_set "f" 3)
      (counter.world 7 [counter.change_set "g" 4;
                        counter.change_set "f" 3] []).
Proof.
  apply (proj1 (proj2 (proj2 (negative_index_selects_from_end
    (counter.world 7 [counter.change_set "g" 4;
                      counter.change_set "f" 3] []))))).
  reflexivity.
Defined.

Lemma applied_refactoring_pushes_one_witness :
  ∃ cs,
    undo_list (proj (perform (ExtractMethodCall "f" "/proj/mod.py" 2 5)
                       (counter.world 7 [counter.change_set "g" 4]
                          [counter.change_set "h" 1])).2)
    = [cs; counter.change_set "g" 4] ∧
    redo_list (proj (perform (ExtractMethodCall "f" "/proj/mod.py" 2 5)
                       (counter.world 7 [counter.change_set "g" 4]
                          [counter.change_set "h" 1])).2)
    = [].
Proof.
  apply (applied_refactoring_pushes_one
           (ExtractMethodCall "f" "/proj/mod.py" 2 5)
           (counter.world 7 [counter.change_set "g" 4]
              [counter.change_set "h" 1])).
  vm_compute. reflexivity.
Defined.

Lemma undo_all_restores_witness :
  ∃ w2,
    undo_times 2
      (perform_all [ExtractMethodCall "f" "/proj/mod.py" 2 5;
                    RenameCall "g" "mod.py" (Some 4%Z)]
         (counter.world 7 [] [])).2
    = (Ok tt, w2) ∧
    contents (proj w2) = contents (proj (counter.world 7 [] [])) ∧
    undo_list (proj w2) = [] ∧
    length (redo_list (proj w2)) = 2.
Proof.
  apply (undo_all_restores counter_invertible
           [ExtractMethodCall "f" "/proj/mod.py" 2 5;
            RenameCall "g" "mod.py" (Some 4%Z)]
           (counter.world 7 [] [])).
  - reflexivity.
  - reflexivity.
  - vm_compute. reflexivity.
Defined.

Lemma _to_relative_path_under_root_witness :
  ∃ q, _to_relative_path "/proj/pkg/../mod.py" (counter.world 7 [] [])
       = (Ok q, counter.world 7 [] []) ∧
       Forall posixpath.component (posixpath.split q) ∧
       posixpath.pardir ∉ posixpath.split q.
Proof.
  destruct (proj2 (_to_relative_path_under_root "/proj/pkg/../mod.py"
                     (counter.world 7 [] [])) eq_refl)
    as (q & Hq & Hcomp & Hunder & _).
  exists q. split; [exact Hq|]. split; [exact Hcomp|].
  apply Hunder. exists ["mod.py"]. vm_compute. reflexivity.
Defined.

Lemma _to_relative_path_idempotent_witness :
  _to_relative_path "pkg/mod.py" (counter.world 7 [] [])
  = (Ok "pkg/mod.py", counter.world 7 [] []).
Proof.
  apply (proj1 (_to_relative_path_idempotent "pkg/mod.py"
                  (counter.world 7 [] []))).
  reflexivity.
Defined.

Lemma get_all_resources_breadth_first_witness :
  get_all_resources 2 (root (proj (counter.world 7 [] [])))
  = Some (Ok (map info (breadth_first (root (proj (counter.world 7 [] [])))))).
Proof.
  apply (get_all_resources_breadth_first 2 (counter.world 7 [] [])).
  - exact counter_well_formed.
  - simpl. lia.
Defined.

Lemma main_arguments_witness :
  server.main {| server.arg_port := None;
                 server.arg_verbosity := Some 1%Z;
                 server.arg_project := Some "/proj" |}
  = Ok {| server.launch_level := server.INFO;
          server.launch_project := "/proj";
          server.launch_port := 0 |}.
Proof.
  apply (proj1 (proj2 main_arguments)
           {| server.arg_port := None;
              server.arg_verbosity := Some 1%Z;
              server.arg_project := Some "/proj" |}).
  - reflexivity.
  - vm_compute. reflexivity.
Defined.


(** * Further properties *)

(** ** History queries *)

Lemma norm_index_in_range (len : nat) (idx : Z) :
  (- Z.of_nat len ≤ idx < Z.of_nat len)%Z →
  norm_index len idx = Some (Z.to_nat (idx `mod` Z.of_nat len)).
Proof.
  intros Hrange. destruct (Z.leb_spec 0 idx) as [Hpos|Hneg].
  - unfold norm_index. destruct (Z.leb_spec 0 idx); [|lia].
    destruct (Z.ltb_spec idx (Z.of_nat len)); [|lia].
    by rewrite Z.mod_small by lia.
  - rewrite norm_index_negative by lia.
    rewrite <- (Z.mod_add idx 1 (Z.of_nat len)) by lia.
    rewrite Z.mod_small by lia. do 2 f_equal. lia.
Qed.

Lemma norm_index_Some (len : nat) (idx : Z) (i : nat) :
  norm_index len idx = Some i →
  (- Z.of_nat len ≤ idx < Z.of_nat len)%Z ∧ i < len.
Proof.
  unfold norm_index. destruct (Z.leb_spec 0 idx).
  - destruct (Z.ltb_spec idx (Z.of_nat len)); [|done]. intros [= <-]. lia.
  - destruct (Z.leb_spec 0 (idx + Z.of_nat len)); [|done]. intros [= <-]. lia.
Qed.

Lemma subscript_in_range {A} (seq : list A) (idx : Z) :
  (- Z.of_nat (length seq) ≤ idx < Z.of_nat (length seq))%Z →
  ∃ x, seq !! Z.to_nat (idx `mod` Z.of_nat (length seq)) = Some x ∧
       subscript seq idx
         = Ok (Z.to_nat (idx `mod` Z.of_nat (length seq)), x).
Proof.
  intros Hrange. unfold subscript. rewrite norm_index_in_range by done.
  destruct (norm_index_Some _ _ _ (norm_index_in_range _ _ Hrange))
    as [_ Hlt].
  destruct (lookup_lt_is_Some_2 seq _ Hlt) as [x Hx].
  exists x. by rewrite Hx.
Qed.

Lemma subscript_Ok {A} (seq : list A) (idx : Z) (i : nat) (x : A) :
  subscript seq idx = Ok (i, x) →
  norm_index (length seq) idx = Some i ∧ seq !! i = Some x.
Proof.
  unfold subscript. destruct (norm_index (length seq) idx) as [k|]; [|done].
  destruct (seq !! k) as [y|] eqn:Hy; [|done]. by intros [= <- <-].
Qed.

Lemma subscript_raises {A} (seq : list A) (idx : Z) (e : exn) :
  subscript seq idx = Raise e →
  e = IndexError ∧
  ((idx < - Z.of_nat (length seq))%Z ∨ (Z.of_nat (length seq) ≤ idx)%Z).
Proof.
  intros Hs.
  destruct (decide (- Z.of_nat (length seq) ≤ idx < Z.of_nat (length seq))%Z)
    as [Hin|Hout].
  - destruct (subscript_in_range seq idx Hin) as (x & _ & Hok). congruence.
  - split; [|lia]. revert Hs. unfold subscript.
    destruct (norm_index _ _); [destruct (seq !! _)|]; congruence.
Qed.

Lemma getitem_fmap {A B} (f : A → B) (seq : list A) (idx : Z) :
  getitem (f <$> seq) idx =
    match getitem seq idx with Ok x => Ok (f x) | Raise e => Raise e end.
Proof.
  unfold getitem, subscript. rewrite length_fmap.
  destruct (norm_index (length seq) idx) as [i|]; [|done].
  rewrite list_lookup_fmap. by destruct (seq !! i).
Qed.

(** X1: [_history_info], and with it [undo_info] and [redo_info], raises
    exactly when the index lies outside [-len, len), and what it raises
    then is [IndexError]. *)
Theorem _history_info_raises_iff (seq : list ChangeSet) (idx : Z) :
  (∀ e, _history_info seq idx = Raise e → e = IndexError) ∧
  (_history_info seq idx = Raise IndexError ↔
   (idx < - Z.of_nat (length seq))%Z ∨ (Z.of_nat (length seq) ≤ idx)%Z).
Proof.
  unfold _history_info, getitem. split; [|split].
  - intros e. destruct (subscript seq idx) as [[i c]|e'] eqn:Hs; [done|].
    intros [= <-]. by apply subscript_raises in Hs as [-> _].
  - destruct (subscript seq idx) as [[i c]|e'] eqn:Hs; [done|].
    intros _. by apply subscript_raises in Hs as [_ ?].
  - intros [Hlow|Hhigh].
    + by rewrite subscript_below.
    + by rewrite subscript_ge.
Qed.

Section History_queries.
Context `{E : AnalysisEngine}.

(** X2: whenever [undo_info(idx)] returns, [undo_history()] returns too,
    the world is untouched, and the description in the returned dict is
    [undo_history()[idx]]; likewise for [redo_info] and [redo_history]. *)
Theorem info_agrees_with_history (w : World) (idx : Z) (hi : HistoryInfo) :
  ((undo_info idx w).1 = Ok hi →
     (undo_info idx w).2 = w ∧
     ∃ descs, undo_history w = (Ok descs, w) ∧
              getitem descs idx = Ok (info_description hi) ∧
              length descs = length (undo_list (proj w))) ∧
  ((redo_info idx w).1 = Ok hi →
     (redo_info idx w).2 = w ∧
     ∃ descs, redo_history w = (Ok descs, w) ∧
              getitem descs idx = Ok (info_description hi) ∧
              length descs = length (redo_list (proj w))).
Proof.
  split; intros Hinfo; (split; [done|]).
  - exists (map description (undo_list (proj w))). split; [done|].
    split; [|by rewrite length_map].
    unfold undo_info, lift, _history_info in Hinfo. simpl in Hinfo.
    change (map description (undo_list (proj w)))
      with (description <$> undo_list (proj w)).
    rewrite getitem_fmap.
    destruct (getitem (undo_list (proj w)) idx); by simplify_eq.
  - exists (map description (redo_list (proj w))). split; [done|].
    split; [|by rewrite length_map].
    unfold redo_info, lift, _history_info in Hinfo. simpl in Hinfo.
    change (map description (redo_list (proj w)))
      with (description <$> redo_list (proj w)).
    rewrite getitem_fmap.
    destruct (getitem (redo_list (proj w)) idx); by simplify_eq.
Qed.

(** X3: with an index in [-len, len), [undo] (resp. [redo]) gets past the
    subscript and hands the entry at position [idx mod len] to the history:
    [idx] and [idx - len] name the same entry. *)
Theorem undo_redo_in_range (w : World) (idx : Z) :
  ((- Z.of_nat (length (undo_list (proj w))) ≤ idx
    < Z.of_nat (length (undo_list (proj w))))%Z →
   ∃ c, let i := Z.to_nat (idx `mod` Z.of_nat (length (undo_list (proj w)))) in
        undo_list (proj w) !! i = Some c ∧
        undo idx w = History_undo i c w) ∧
  ((- Z.of_nat (length (redo_list (proj w))) ≤ idx
    < Z.of_nat (length (redo_list (proj w))))%Z →
   ∃ c, let i := Z.to_nat (idx `mod` Z.of_nat (length (redo_list (proj w)))) in
        redo_list (proj w) !! i = Some c ∧
        redo idx w = History_redo i c w).
Proof.
  split; intros Hrange.
  - destruct (subscript_in_range (undo_list (proj w)) idx Hrange)
      as (c & Hc & Hs).
    exists c. split; [done|]. unfold undo, bind, history_entry. by rewrite Hs.
  - destruct (subscript_in_range (redo_list (proj w)) idx Hrange)
      as (c & Hc & Hs).
    exists c. split; [done|]. unfold redo, bind, history_entry. by rewrite Hs.
Qed.

End History_queries.

(** ** Either form of a path *)

Section Path_forms.
Context `{E : AnalysisEngine}.

Lemma _to_relative_path_again (p q : string) (w : World) :
  (_to_relative_path p w).1 = Ok q →
  _to_relative_path p w = (Ok q, w) ∧ _to_relative_path q w = (Ok q, w).
Proof.
  intros Hq. pose proof (_to_relative_path_world p w) as Hw.
  destruct (_to_relative_path p w) as [r w0] eqn:Hp. simpl in *. subst.
  split; [done|]. unfold _to_relative_path in *.
  destruct (posixpath.isabs p) eqn:Habs.
  - destruct (posixpath_facts.relpath_relative (cwd w) p
                (real_path (root (proj w))))
      as (q' & Hq' & Hrel); [by apply posixpath_facts.isabs_nonempty|].
    unfold lift in Hp. rewrite Hq' in Hp. simplify_eq. by rewrite Hrel.
  - unfold ret in Hp. simplify_eq. by rewrite Habs.
Qed.

Lemma bind_resolved {A} (p q : string) (k : string → M A) (w : World) :
  (_to_relative_path p w).1 = Ok q →
  bind (_to_relative_path p) k w = bind (_to_relative_path q) k w.
Proof.
  intros Hq. destruct (_to_relative_path_again p q w Hq) as [Hp Hq'].
  unfold bind. by rewrite Hp, Hq'.
Qed.

(** X4: every method that takes a path does the same with a path and with
    what the path resolves to: a client may pass the absolute or the
    project-relative form. *)
Theorem path_forms_interchangeable
    (code_assist_of : Contents → string → Z → Resource → result (list Proposal))
    (get_doc_of : Contents → string → Z → Resource → result (option string))
    (p q : string) (w : World) :
  (_to_relative_path p w).1 = Ok q →
  (∀ name s e, extract_method name p s e w = extract_method name q s e w) ∧
  (∀ name s e, extract_variable name p s e w
               = extract_variable name q s e w) ∧
  (∀ name offset, rename name p offset w = rename name q offset w) ∧
  (∀ code offset, get_definition_location code offset p w
                  = get_definition_location code offset q w) ∧
  RopeInterface_get_children p w = RopeInterface_get_children q w ∧
  (∀ code offset, code_assist code_assist_of code offset p w
                  = code_assist code_assist_of code offset q w) ∧
  (∀ code offset, get_doc get_doc_of code offset p w
                  = get_doc get_doc_of code offset q w).
Proof.
  intros Hq. repeat split; intros;
    unfold extract_method, extract_variable, _extract, rename,
      get_definition_location, RopeInterface_get_children, code_assist,
      get_doc;
    by apply bind_resolved.
Qed.

End Path_forms.

(** ** Children and the listing of all resources *)

Lemma loop_fuel_mono (t : Resource) (fuel : nat) :
  ∀ todo r, get_all_resources_loop fuel t todo = Some r →
  ∀ fuel', fuel ≤ fuel' → get_all_resources_loop fuel' t todo = Some r.
Proof.
  induction fuel as [|fuel IH]; intros todo r Hrun fuel' Hle.
  - destruct todo; [|done]. by destruct fuel'.
  - destruct todo as [|res_path todo]; [by destruct fuel'|].
    destruct fuel' as [|fuel']; [lia|]. simpl in *.
    destruct (get_resource t res_path) as [res|e]; [|done].
    destruct (get_all_resources_loop fuel t _) as [r'|] eqn:Hrest;
      [|done].
    by rewrite (IH _ _ Hrest fuel') by lia.
Qed.

Lemma get_all_resources_listing (t : Resource) (fuel : nat)
    (out : list (string * bool)) :
  well_formed t →
  get_all_resources fuel t = Some (Ok out) →
  out = map info (breadth_first t).
Proof.
  intros [Hroot Hnodup] Hrun.
  pose (fuel' := fuel `max` length (all_resources t)).
  pose proof (loop_fuel_mono _ _ _ _ Hrun fuel') as Hrun'.
  specialize (Hrun' ltac:(lia)). rewrite <- Hroot in Hrun'.
  change [path t] with (map path [t]) in Hrun'.
  rewrite (loop_level_order t (S (height t)) Hnodup [t] fuel') in Hrun'.
  - by simplify_eq.
  - repeat constructor.
  - repeat constructor. rewrite all_resources_unfold. by left.
  - simpl. rewrite app_nil_r. lia.
Qed.

Lemma breadth_first_all (t : Resource) :
  breadth_first t ≡ₚ all_resources t.
Proof.
  unfold breadth_first. rewrite level_order_all by repeat constructor.
  simpl. by rewrite app_nil_r.
Qed.

Lemma all_resources_parent (t r : Resource) :
  r ∈ all_resources t →
  r = t ∨ ∃ parent, parent ∈ all_resources t ∧ is_folder parent = true ∧
                    r ∈ get_children parent.
Proof.
  induction t as [q rp|q rp cs IH] using Resource_ind; intros Hin.
  - apply list_elem_of_singleton in Hin. by left.
  - rewrite all_resources_unfold in Hin. simpl in Hin.
    apply elem_of_cons in Hin as [->|Hin]; [by left|]. right.
    apply elem_of_flat_map in Hin as (c & Hr & Hc).
    eapply Forall_forall in IH; [|exact Hc].
    destruct (IH Hr) as [->|(parent & Hparent & Hfolder & Hchild)].
    + exists (Folder q rp cs). split; [|done].
      rewrite all_resources_unfold. by left.
    + exists parent. split; [|done].
      rewrite (all_resources_unfold (Folder q rp cs)). right.
      apply elem_of_flat_map. by exists c.
Qed.

Section Children.
Context `{E : AnalysisEngine}.

Lemma get_children_of_resource (w : World) (r : Resource) :
  NoDup (map path (all_resources (root (proj w)))) →
  r ∈ all_resources (root (proj w)) →
  posixpath.isabs (path r) = false →
  RopeInterface_get_children (path r) w
    = (Ok (map info (get_children r)), w).
Proof.
  intros Hnodup Hin Hrel.
  unfold RopeInterface_get_children, bind, _to_relative_path.
  rewrite Hrel. unfold ret, proj_get_resource, lift, get_resource.
  by rewrite find_resource_present.
Qed.

(** X5: on a project tree with distinct, project-relative paths,
    [get_children] of a listed folder returns the pairs of its children,
    all of them entries of the list [get_all_resources] returns; and every
    entry of that list except the root's is returned by [get_children] of
    a folder of the list. *)
Theorem get_children_covers_get_all_resources
    (fuel : nat) (w : World) (out : list (string * bool)) :
  well_formed (root (proj w)) →
  Forall (λ r, posixpath.isabs (path r) = false)
    (all_resources (root (proj w))) →
  get_all_resources fuel (root (proj w)) = Some (Ok out) →
  (∀ r, r ∈ all_resources (root (proj w)) → is_folder r = true →
        info r ∈ out ∧
        ∃ kids, RopeInterface_get_children (path r) w = (Ok kids, w) ∧
                kids = map info (get_children r) ∧ kids ⊆ out) ∧
  (∀ x, x ∈ out →
        x = info (root (proj w)) ∨
        ∃ parent kids,
          info parent ∈ out ∧ is_folder parent = true ∧
          RopeInterface_get_children (path parent) w = (Ok kids, w) ∧
          x ∈ kids).
Proof.
  intros Hwf Hrel Hrun.
  pose proof (get_all_resources_listing _ _ _ Hwf Hrun) as ->.
  destruct Hwf as [Hroot Hnodup].
  assert (∀ r, r ∈ all_resources (root (proj w)) →
               info r ∈ map info (breadth_first (root (proj w)))) as Hlisted.
  { intros r Hr. apply list_elem_of_fmap_2. by rewrite breadth_first_all. }
  split.
  - intros r Hr Hfolder. split; [by apply Hlisted|].
    exists (map info (get_children r)). split; [|split; [done|]].
    + apply get_children_of_resource; [done..|].
      by eapply Forall_forall in Hrel.
    + intros x Hx. apply list_elem_of_fmap in Hx as (c & -> & Hc).
      apply Hlisted. by eapply all_resources_child.
  - intros x Hx. apply list_elem_of_fmap in Hx as (r & -> & Hr).
    rewrite breadth_first_all in Hr.
    destruct (all_resources_parent _ _ Hr)
      as [->|(parent & Hparent & Hfolder & Hchild)]; [by left|right].
    exists parent, (map info (get_children parent)).
    split; [by apply Hlisted|]. split; [done|]. split.
    + apply get_children_of_resource; [done..|].
      by eapply Forall_forall in Hrel.
    + by apply list_elem_of_fmap_2.
Qed.

End Children.

(** ** The order of the listing *)

Lemma at_depth_succ (d : nat) (f : list Resource) :
  at_depth (S d) f = flat_map get_children (at_depth d f).
Proof.
  revert f. induction d as [|d IH]; intros f; [done|].
  change (at_depth (S (S d)) f)
    with (at_depth (S d) (flat_map get_children f)).
  by rewrite IH.
Qed.

Lemma at_depth_beyond (n : nat) (f : list Resource) :
  Forall (λ r, height r < n) f → at_depth n f = [].
Proof.
  revert f. induction n as [|n IH]; intros f Hf.
  - destruct f as [|r f]; [done|]. inversion Hf; subst. lia.
  - simpl. by apply IH, lower_children.
Qed.

Lemma elem_of_level_order (n : nat) (f : list Resource) (r : Resource) :
  r ∈ level_order n f ↔ ∃ d, d < n ∧ r ∈ at_depth d f.
Proof.
  unfold level_order. rewrite elem_of_flat_map. split.
  - intros (d & Hr & Hd). apply elem_of_seq in Hd. exists d. split; [lia|done].
  - intros (d & Hd & Hr). exists d. split; [done|]. apply elem_of_seq. lia.
Qed.

Lemma precedes_levels {A} (g : nat → list A) (n d d' : nat) (x y : A) :
  d < d' → d' < n → x ∈ g d → y ∈ g d' →
  precedes x y (flat_map g (seq 0 n)).
Proof.
  intros Hd Hd' Hx Hy.
  apply list_elem_of_split in Hx as (a1 & a2 & Hx).
  apply list_elem_of_split in Hy as (b1 & b2 & Hy).
  replace n with (d + (1 + ((d' - S d) + (1 + (n - S d'))))) by lia.
  rewrite !seq_app, !flat_map_app. simpl. rewrite !app_nil_r.
  replace (0 + d) with d by lia.
  replace (d + 1 + (d' - S d)) with d' by lia.
  rewrite Hx, Hy.
  exists (flat_map g (seq 0 d) ++ a1),
    (a2 ++ flat_map g (seq (d + 1) (d' - S d)) ++ b1),
    (b2 ++ flat_map g (seq (d' + 1) (n - S d'))).
  by rewrite <- !app_assoc.
Qed.

Lemma precedes_fmap {A B} (f : A → B) (x y : A) (l : list A) :
  precedes x y l → precedes (f x) (f y) (map f l).
Proof.
  intros (l1 & l2 & l3 & ->).
  exists (map f l1), (map f l2), (map f l3).
  by rewrite !map_app, !map_cons, !map_app.
Qed.

(** X6: in the list [get_all_resources] returns for a project tree, the
    root comes first and every folder stands before each of its
    children. *)
Theorem get_all_resources_parents_first (fuel : nat) (t : Resource)
    (out : list (string * bool)) :
  well_formed t →
  get_all_resources fuel t = Some (Ok out) →
  head out = Some (info t) ∧
  ∀ parent child,
    parent ∈ all_resources t → child ∈ get_children parent →
    precedes (info parent) (info child) out.
Proof.
  intros Hwf Hrun.
  pose proof (get_all_resources_listing _ _ _ Hwf Hrun) as ->.
  split.
  - unfold breadth_first. by rewrite level_order_succ.
  - intros parent child Hparent Hchild. apply precedes_fmap.
    rewrite <- breadth_first_all in Hparent.
    apply elem_of_level_order in Hparent as (d & Hd & Hparent).
    assert (child ∈ at_depth (S d) [t]) as Hdeep.
    { rewrite at_depth_succ. apply elem_of_flat_map. by exists parent. }
    assert (S d < S (height t)) as Hd'.
    { destruct (decide (S d < S (height t))) as [|Hge]; [done|].
      assert (d = height t) as -> by lia.
      rewrite at_depth_beyond in Hdeep by repeat constructor.
      by apply elem_of_nil in Hdeep. }
    by apply (precedes_levels (λ d, at_depth d [t]) _ d (S d)); [lia|..].
Qed.

(** ** Resolving and joining *)

Module posixpath_joins.
Import posixpath posixpath_facts.

Lemma split_append (a b : string) :
  split (a +:+ sep +:+ b) = split a ++ split b.
Proof.
  induction a as [|x a IH]; [done|].
  rewrite append_cons. simpl. rewrite IH.
  destruct (is_sep x); [done|].
  pose proof (split_not_nil a). by destruct (split a).
Qed.

Lemma endswith_sep_inv (s : string) :
  endswith_sep s = true → ∃ s', s = s' +:+ sep.
Proof.
  induction s as [|x s IH]; [done|]. simpl. destruct s as [|y s].
  - unfold is_sep. intros Hx%Ascii.eqb_eq. subst. by exists "".
  - intros Hs. destruct (IH Hs) as [s' ->]. by exists (String x s').
Qed.

Lemma norm_fold_slashes (k k' : nat) (comps acc : list string) :
  k ≠ 0 → k' ≠ 0 →
  fold_left (norm_step k) comps acc = fold_left (norm_step k') comps acc.
Proof.
  intros Hk Hk'. revert acc. induction comps as [|c comps IH]; intros acc.
  - done.
  - simpl. rewrite IH. f_equal. unfold norm_step.
    destruct (Nat.eqb_spec k 0), (Nat.eqb_spec k' 0); done.
Qed.

Lemma norm_fold_plain (k : nat) (comps acc : list string) :
  Forall plain_component comps →
  fold_left (norm_step k) comps acc = acc ++ comps.
Proof.
  intros Hcomps. revert acc.
  induction Hcomps as [|c comps ([Hne _] & Hdot & Hpar) _ IH]; intros acc.
  - by rewrite app_nil_r.
  - simpl. rewrite IH. unfold norm_step.
    destruct (String.eqb_spec c "") as [|_]; [done|].
    destruct (String.eqb_spec c curdir) as [|_]; [done|].
    destruct (String.eqb_spec c pardir) as [|_]; [done|].
    simpl. by rewrite <- app_assoc.
Qed.

(** [normpath] keeps no ['.']. *)
Lemma norm_fold_no_curdir (k : nat) (comps acc : list string) :
  curdir ∉ acc → curdir ∉ fold_left (norm_step k) comps acc.
Proof.
  revert acc. induction comps as [|c comps IH]; intros acc Hacc; [done|].
  simpl. apply IH. unfold norm_step.
  destruct (String.eqb_spec c "") as [|_]; [done|].
  destruct (String.eqb_spec c curdir) as [|Hdot]; [done|]. simpl.
  match goal with |- _ ∉ (if ?b then _ else _) => destruct b end.
  - intros [Hin|Hin%list_elem_of_singleton]%elem_of_app; [done|].
    by apply Hdot.
  - rewrite removelast_take. intros Hin. apply Hacc.
    by eapply subseteq_take.
Qed.

(** The components of an absolute path after [abspath] are plain. *)
Lemma norm_comps_plain (p : string) :
  isabs p = true → Forall plain_component (norm_comps p).
Proof.
  intros Habs. pose proof (isabs_initial_slashes p Habs) as Hk.
  destruct (norm_fold_invariant (initial_slashes p) (split p) [])
    as [Hcomp Hpar]; [apply split_no_sep|done|by intros _ ?%elem_of_nil|].
  pose proof (norm_fold_no_curdir (initial_slashes p) (split p) []) as Hdot.
  fold (norm_comps p) in Hcomp, Hpar, Hdot.
  apply Forall_forall. intros c Hc. split; [|split].
  - by eapply Forall_forall in Hcomp.
  - intros ->. apply Hdot; [by intros ?%elem_of_nil|done].
  - intros ->. by apply (Hpar Hk).
Qed.

(** The components of [join(root, q)], for an absolute [root] and a [q]
    that does not start with a slash: [normpath] goes on with the
    components of [q] where it stood after those of [root]. *)
Lemma norm_comps_join (root q : string) :
  isabs root = true → isabs q = false →
  isabs (join root [q]) = true ∧
  norm_comps (join root [q])
    = fold_left (norm_step (initial_slashes root)) (split q)
        (norm_comps root).
Proof.
  intros Hroot Hq. pose proof (isabs_nonempty root Hroot) as Hne.
  pose proof (isabs_initial_slashes root Hroot) as Hk.
  unfold join. simpl. unfold join_step. unfold isabs in Hq. rewrite Hq.
  rewrite eqb_empty, bool_decide_eq_false_2 by done. simpl.
  destruct (endswith_sep root) eqn:Hend.
  - destruct (endswith_sep_inv root Hend) as [r ->].
    assert (isabs ((r +:+ sep) +:+ q) = true) as Habs.
    { unfold isabs in *. by rewrite startswith_append. }
    split; [done|]. unfold norm_comps.
    rewrite (norm_fold_slashes _ (initial_slashes (r +:+ sep)))
      by (by apply isabs_initial_slashes).
    set (k := initial_slashes (r +:+ sep)).
    rewrite append_assoc, split_append, fold_left_app. f_equal.
    rewrite <- (append_empty_r (r +:+ sep)).
    by rewrite append_assoc, split_append, fold_left_app.
  - assert (isabs (root +:+ sep +:+ q) = true) as Habs.
    { unfold isabs in *. by rewrite startswith_append. }
    split; [done|]. unfold norm_comps.
    rewrite (norm_fold_slashes _ (initial_slashes root))
      by (by apply isabs_initial_slashes).
    by rewrite split_append, fold_left_app.
Qed.

Lemma commonprefix_app (l k : list string) : commonprefix l (l ++ k) = l.
Proof. apply commonprefix_prefix. by exists k. Qed.

End posixpath_joins.

Section Round_trips.
Context `{E : AnalysisEngine}.
Import posixpath posixpath_facts posixpath_joins.

Lemma rel_list_nil (cwd p start : string) :
  rel_list cwd p start = [] ↔
  nonempty_comps (abspath cwd p) = nonempty_comps (abspath cwd start).
Proof.
  unfold rel_list.
  set (sl := nonempty_comps (abspath cwd start)).
  set (pl := nonempty_comps (abspath cwd p)).
  pose proof (commonprefix_length sl pl) as Hle. split.
  - intros [Hrep Hdrop]%app_eq_nil.
    assert (length (commonprefix sl pl) = length sl) as Hfull.
    { destruct (length sl - length (commonprefix sl pl)) eqn:Hn; [lia|done]. }
    destruct (commonprefix_full _ _ Hfull) as [k Hk].
    rewrite Hfull, Hk, drop_app_length in Hdrop. subst k.
    by rewrite Hk, app_nil_r.
  - intros ->. rewrite (commonprefix_prefix sl sl) by done.
    by rewrite Nat.sub_diag, drop_all.
Qed.

(** X7: an absolute path resolves to ['.'] exactly when it names the
    project root, that is, when [abspath] gives it the components of the
    root's path. *)
Theorem _to_relative_path_curdir (p : string) (w : World) :
  isabs p = true →
  ((_to_relative_path p w).1 = Ok curdir ↔
   nonempty_comps (abspath (cwd w) p)
   = nonempty_comps (abspath (cwd w) (real_path (root (proj w))))).
Proof.
  intros Habs. unfold _to_relative_path. rewrite Habs. unfold lift. simpl.
  rewrite <- rel_list_nil.
  destruct (relpath_split (cwd w) p (real_path (root (proj w))))
    as (q & -> & [[Hnil ->]|[Hne Hsplit]]); [by apply isabs_nonempty|done|].
  split; [|done]. intros [= ->]. exfalso.
  destruct (abspath_absolute_comps (cwd w) p Habs) as [Hcomps _].
  pose proof (norm_comps_plain p Habs) as Hplain.
  assert (curdir ∈ rel_list (cwd w) p (real_path (root (proj w)))) as Hin.
  { rewrite <- Hsplit. by left. }
  unfold rel_list in Hin. apply elem_of_app in Hin as [Hin|Hin].
  - by apply elem_of_replicate in Hin as [? _].
  - apply subseteq_drop in Hin. rewrite Hcomps in Hin.
    eapply Forall_forall in Hplain; [|exact Hin]. by destruct Hplain as (_ & ? & _).
Qed.

(** X8: joining the absolute root path with a relative path made of plain
    components and resolving the result gives the relative path back. *)
Theorem _to_relative_path_of_joined (comps : list string) (w : World) :
  isabs (real_path (root (proj w))) = true →
  Forall plain_component comps → comps ≠ [] →
  _to_relative_path
    (join (real_path (root (proj w))) [sep_join comps]) w
  = (Ok (sep_join comps), w).
Proof.
  intros Hroot Hplain Hne.
  pose (r := real_path (root (proj w))). fold r in Hroot |- *.
  assert (Forall component comps) as Hcomp.
  { eapply Forall_impl; [exact Hplain|]. by intros c [? _]. }
  assert (isabs (sep_join comps) = false) as Hrel.
  { destruct comps as [|a l]; [done|].
    rewrite <- join_component_list by done. by apply isabs_join. }
  destruct (norm_comps_join r (sep_join comps) Hroot Hrel) as [Habs Hnorm].
  rewrite split_sep_join, norm_fold_plain in Hnorm by done.
  unfold _to_relative_path. fold r. rewrite Habs. unfold lift. f_equal.
  unfold relpath.
  rewrite eqb_empty, bool_decide_eq_false_2 by by apply isabs_nonempty.
  unfold rel_list.
  destruct (abspath_absolute_comps (cwd w) _ Habs) as [-> _].
  destruct (abspath_absolute_comps (cwd w) _ Hroot) as [-> _].
  rewrite Hnorm, commonprefix_app, Nat.sub_diag, drop_app_length. simpl.
  destruct comps as [|a l]; [done|]. by rewrite join_component_list.
Qed.

(** X9: for an absolute path under the absolute project root, joining
    the root path with what the path resolves to names the same file:
    [abspath] gives both the same components. *)
Theorem joined_resolved_path (p q : string) (w : World) :
  isabs (real_path (root (proj w))) = true →
  isabs p = true →
  under (cwd w) (real_path (root (proj w))) p →
  (_to_relative_path p w).1 = Ok q →
  nonempty_comps (abspath (cwd w) (join (real_path (root (proj w))) [q]))
  = nonempty_comps (abspath (cwd w) p).
Proof.
  intros Hroot Habs Hunder Hq.
  pose (r := real_path (root (proj w))). fold r in Hroot |- *.
  unfold _to_relative_path in Hq. fold r in Hunder, Hq.
  rewrite Habs in Hq. unfold lift in Hq. simpl in Hq.
  destruct (relpath_relative (cwd w) p r) as (q' & Hq' & Hrel);
    [by apply isabs_nonempty|].
  destruct (relpath_split (cwd w) p r) as (q'' & Hq'' & Hsplit);
    [by apply isabs_nonempty|].
  assert (q' = q) as -> by congruence. assert (q'' = q) as -> by congruence.
  destruct (norm_comps_join r q Hroot Hrel) as [Hjabs Hnorm].
  destruct (abspath_absolute_comps (cwd w) _ Hjabs) as [-> _].
  destruct (abspath_absolute_comps (cwd w) _ Habs) as [Hp _].
  destruct (abspath_absolute_comps (cwd w) _ Hroot) as [Hr _].
  pose proof (norm_comps_plain p Habs) as Hplain.
  rewrite Hnorm, Hp.
  unfold under in Hunder. rewrite Hp, Hr in Hunder.
  destruct Hunder as [k Hk].
  assert (rel_list (cwd w) p r = k) as Hlist.
  { unfold rel_list. rewrite Hp, Hr, Hk, commonprefix_app, Nat.sub_diag.
    simpl. by rewrite drop_app_length. }
  destruct Hsplit as [[Hnil ->]|[Hne ->]].
  - rewrite Hlist in Hnil. subst k. rewrite app_nil_r in Hk.
    simpl. by rewrite Hk.
  - rewrite Hlist, norm_fold_plain, Hk; [done|].
    rewrite Hk in Hplain. by apply Forall_app in Hplain as [_ ?].
Qed.

End Round_trips.


(** ** A lookup without a line *)

(** X10: when the engine's answer carries no line, [get_definition_location]
    returns the engine's pair as it is: its first slot then holds the
    resource object the engine found, if any, and not a path. *)
Theorem get_definition_location_without_line `{E : AnalysisEngine}
    (code : string) (offset : Z) (p p' : string) (w : World)
    (res : Resource) (r0 : option Resource) :
  (_to_relative_path p w).1 = Ok p' →
  get_resource (root (proj w)) p' = Ok res →
  codeassist_get_definition_location (contents (proj w)) code offset res
    = Ok (r0, None) →
  get_definition_location code offset p w
  = (Ok (match r0 with Some r => LResource r | None => LNone end, None), w).
Proof.
  intros Hp Hres Hengine.
  unfold get_definition_location, bind, proj_get_resource.
  pose proof (_to_relative_path_world p w) as Hw.
  destruct (_to_relative_path p w) as [r1 w0]. simpl in Hp, Hw. subst.
  unfold lift, engine, ret. rewrite Hres, Hengine. by destruct r0.
Qed.

(** ** What [main] does *)

Lemma level_of_cases (v : Z) :
  (v = 0%Z ∧ server.level_of v = Ok server.WARNING) ∨
  (v = 1%Z ∧ server.level_of v = Ok server.INFO) ∨
  (v = 2%Z ∧ server.level_of v = Ok server.DEBUG) ∨
  (v ≠ 0%Z ∧ v ≠ 1%Z ∧ v ≠ 2%Z ∧ server.level_of v = Raise KeyError).
Proof.
  destruct (decide (v = 0%Z)) as [->|H0]; [by left|].
  destruct (decide (v = 1%Z)) as [->|H1]; [by right; left|].
  destruct (decide (v = 2%Z)) as [->|H2]; [by right; right; left|].
  do 3 right. repeat split; [done..|].
  unfold server.level_of, server.levels.
  by rewrite !lookup_insert_ne, lookup_empty.
Qed.

(** X11: when [main] returns it has configured logging once, installed the
    workspace plugin of the given project and run the application on
    [localhost] with the given port, in this order; the three info records
    (project root, Python version, server address) are emitted with
    verbosity 1 or 2 and suppressed with the default verbosity 0. When the
    project is missing or the verbosity is not 0, 1 or 2, [main] raises
    before it has configured logging or touched the application. *)
Theorem main_events (version app : string) (argv : server.Argv) :
  match server_run.main version app argv with
  | (events, Ok _) =>
      ∃ d level,
        server.arg_project argv = Some d ∧
        server.level_of (default 0%Z (server.arg_verbosity argv)) = Ok level ∧
        filter (λ e, ¬ server_run.is_emit e) events
        = [server_run.BasicConfig level; server_run.Install d;
           server_run.Run "localhost"
             (default 0%Z (server.arg_port argv))] ∧
        filter (λ e, server_run.is_emit e) events
        = if decide (default 0%Z (server.arg_verbosity argv) = 0%Z) then []
          else [server_run.Emit (server_run.ProjectRoot d);
                server_run.Emit (server_run.PythonVersion version);
                server_run.Emit
                  (server_run.Running app "localhost"
                     (default 0%Z (server.arg_port argv)))]
  | (events, Raise e) =>
      events = [] ∧
      ((server.arg_project argv = None ∧ e = SystemExit 2) ∨
       (e = KeyError ∧
        ∃ v, server.arg_verbosity argv = Some v ∧
             v ≠ 0%Z ∧ v ≠ 1%Z ∧ v ≠ 2%Z))
  end.
Proof.
  unfold server_run.main, server.parse_args.
  destruct (server.arg_project argv) as [d|] eqn:Hd; simpl;
    [|split; [done|by left]].
  destruct (level_of_cases (default 0%Z (server.arg_verbosity argv)))
    as [[Hv Hl]|[[Hv Hl]|[[Hv Hl]|(H0 & H1 & H2 & Hl)]]]; rewrite Hl.
  - exists d, server.WARNING. rewrite Hv. by repeat split.
  - exists d, server.INFO. rewrite Hv. by repeat split.
  - exists d, server.DEBUG. rewrite Hv. by repeat split.
  - split; [done|]. right. split; [done|].
    destruct (server.arg_verbosity argv) as [v|]; [|done].
    by exists v.
Qed.

(** ** Failures on the way to a refactoring *)

Section Failures.
Context `{E : AnalysisEngine}.

(** X12: when the resource of the resolved path cannot be found, every
    method that takes a path raises the lookup's exception and leaves the
    world as it was, log included: the lookup stands outside every [try]
    and before every other call to the engine. *)
Theorem missing_resource_raises
    (code_assist_of : Contents → string → Z → Resource → result (list Proposal))
    (get_doc_of : Contents → string → Z → Resource → result (option string))
    (p q : string) (w : World) (e : exn) :
  (_to_relative_path p w).1 = Ok q →
  get_resource (root (proj w)) q = Raise e →
  (∀ name s e', extract_method name p s e' w = (Raise e, w)) ∧
  (∀ name s e', extract_variable name p s e' w = (Raise e, w)) ∧
  (∀ name offset, rename name p offset w = (Raise e, w)) ∧
  (∀ code offset, get_definition_location code offset p w = (Raise e, w)) ∧
  RopeInterface_get_children p w = (Raise e, w) ∧
  (∀ code offset, code_assist code_assist_of code offset p w
                  = (Raise e, w)) ∧
  (∀ code offset, get_doc get_doc_of code offset p w = (Raise e, w)).
Proof.
  intros Hq Hres. destruct (_to_relative_path_again p q w Hq) as [Hp _].
  repeat split; intros;
    unfold extract_method, extract_variable, _extract, rename,
      get_definition_location, RopeInterface_get_children, code_assist,
      get_doc, bind, proj_get_resource, lift;
    by rewrite Hp, Hres.
Qed.

(** X13: an exception from computing the change set is re-raised after
    exactly one record, ["_extract failed"] or ["rename failed"], has gone
    to the log, with the project untouched; a [SystemExit] passes without
    a record, and so does any failure to construct the refactoring object,
    which happens before the [try]. *)
Theorem compute_failure_logged (p q : string) (w : World)
    (res : Resource) (e : exn) :
  (_to_relative_path p w).1 = Ok q →
  get_resource (root (proj w)) q = Ok res →
  (∀ cls name s e' extractor,
     new_extractor cls (contents (proj w)) res s e' = Ok extractor →
     extractor_get_changes extractor name (contents (proj w)) = Raise e →
     _extract p name s e' cls w
     = (Raise e,
        if is_exception e
        then {| proj := proj w; cwd := cwd w;
                log := log w ++ ["_extract failed"] |}
        else w)) ∧
  (∀ name offset renamer,
     new_renamer (contents (proj w)) res offset = Ok renamer →
     renamer_get_changes renamer name (contents (proj w)) = Raise e →
     rename name p offset w
     = (Raise e,
        if is_exception e
        then {| proj := proj w; cwd := cwd w;
                log := log w ++ ["rename failed"] |}
        else w)) ∧
  (∀ cls name s e',
     new_extractor cls (contents (proj w)) res s e' = Raise e →
     _extract p name s e' cls w = (Raise e, w)) ∧
  (∀ name offset,
     new_renamer (contents (proj w)) res offset = Raise e →
     rename name p offset w = (Raise e, w)).
Proof.
  intros Hq Hres. destruct (_to_relative_path_again p q w Hq) as [Hp _].
  repeat split; intros;
    unfold _extract, rename, bind, proj_get_resource, lift, engine,
      try_log_raise;
    rewrite Hp, Hres; simpl;
    repeat match goal with H : _ = _ |- _ => rewrite H; clear H end;
    simpl; by destruct (is_exception e).
Qed.

End Failures.

(** ** Refactorings and lookups, case by case *)

Section Cases.
Context `{E : AnalysisEngine}.

Lemma _to_relative_path_returns (p : string) (w : World) :
  ∃ q, _to_relative_path p w = (Ok q, w) ∧ posixpath.isabs q = false.
Proof.
  unfold _to_relative_path. destruct (posixpath.isabs p) eqn:Habs.
  - destruct (posixpath_facts.relpath_relative (cwd w) p
                (real_path (root (proj w))))
      as (q & Hq & Hrel); [by apply posixpath_facts.isabs_nonempty|].
    exists q. unfold lift. by rewrite Hq.
  - by exists p.
Qed.


(** C8, as amended: when the engine answers the lookup, the call leaves
    the world alone and returns, by the engine's pair: the pair itself when
    it has no line, that is [(None, None)] when there is no resource either
    and the resource object with [None] otherwise; the resolved path of the
    queried resource, which is never absolute, with the line when there is
    a line and no resource; the [real_path] of the target resource, its
    path on disk and not its project-relative path, with the line when
    there are both. *)
Theorem get_definition_location_cases
    (code : string) (offset : Z) (p : string) (w : World) :
  ∃ q, _to_relative_path p w = (Ok q, w) ∧ posixpath.isabs q = false ∧
  ∀ res rslt,
    get_resource (root (proj w)) q = Ok res →
    codeassist_get_definition_location (contents (proj w)) code offset res
      = Ok rslt →
    get_definition_location code offset p w
    = (Ok match rslt with
          | (None, None) => (LNone, None)
          | (Some r, None) => (LResource r, None)
          | (None, Some line) => (LPath q, Some line)
          | (Some r, Some line) => (LPath (real_path r), Some line)
          end, w).
Proof.
  destruct (_to_relative_path_returns p w) as (q & Hq & Hrel).
  exists q. split; [done|]. split; [done|].
  intros res rslt Hres Hengine.
  unfold get_definition_location, bind, proj_get_resource, lift, engine, ret.
  rewrite Hq, Hres, Hengine. by destruct rslt as [[r|] [line|]].
Qed.

End Cases.


(** C8, as stated, fails: for a definition the engine locates in the
    resource ["mod.py"] of the project, the call returns the path
    ["/proj/mod.py"], which is neither the project-relative path of that
    resource nor what that path resolves to. *)
Lemma get_definition_location_returns_real_path :
  (get_definition_location "x = 1" 100 "mod.py" (counter.world 7 [] [])).1
  = Ok (LPath "/proj/mod.py", Some 1%Z) ∧
  path (File "mod.py" "/proj/mod.py") = "mod.py" ∧
  (_to_relative_path "/proj/mod.py" (counter.world 7 [] [])).1
  = Ok "mod.py" ∧
  LPath "/proj/mod.py" ≠ LPath "mod.py".
Proof.
  split; [reflexivity|]. split; [reflexivity|].
  split; [vm_compute; reflexivity|discriminate].
Qed.

(** ** The further properties at work *)

Lemma _history_info_raises_iff_witness :
  _history_info [counter.change_set "f" 3] 1 = Raise IndexError.
Proof.
  apply (proj2 (proj2 (_history_info_raises_iff
                         [counter.change_set "f" 3] 1))).
  right. simpl. lia.
Defined.

Lemma info_agrees_with_history_witness :
  ∃ descs,
    undo_history (counter.world 7 [counter.change_set "g" 4;
                                   counter.change_set "f" 3] [])
    = (Ok descs, counter.world 7 [counter.change_set "g" 4;
                                  counter.change_set "f" 3] []) ∧
    getitem descs (-1) = Ok "f" ∧
    length descs = 2.
Proof.
  apply (proj1 (info_agrees_with_history
                  (counter.world 7 [counter.change_set "g" 4;
                                    counter.change_set "f" 3] [])
                  (-1)
                  {| info_description := "f"; info_time := 3;
                     info_full_change := "f";
                     info_changes := [("mod.py", "f")] |})).
  reflexivity.
Defined.

Lemma undo_redo_in_range_witness :
  ∃ c, [counter.change_set "g" 4; counter.change_set "f" 3] !! 1 = Some c ∧
       undo 1 (counter.world 7 [counter.change_set "g" 4;
                                counter.change_set "f" 3] [])
       = History_undo 1 c
           (counter.world 7 [counter.change_set "g" 4;
                             counter.change_set "f" 3] []).
Proof.
  apply (proj1 (undo_redo_in_range
                  (counter.world 7 [counter.change_set "g" 4;
                                    counter.change_set "f" 3] []) 1)).
  simpl. lia.
Defined.

Lemma path_forms_interchangeable_witness :
  RopeInterface_get_children "/proj/mod.py" (counter.world 7 [] [])
  = RopeInterface_get_children "mod.py" (counter.world 7 [] []).
Proof.
  apply (path_forms_interchangeable (λ _ _ _ _, Ok []) (λ _ _ _ _, Ok None)
           "/proj/mod.py" "mod.py" (counter.world 7 [] [])).
  vm_compute. reflexivity.
Defined.

Lemma get_children_covers_get_all_resources_witness :
  ∃ kids,
    RopeInterface_get_children "" (counter.world 7 [] [])
    = (Ok kids, counter.world 7 [] []) ∧
    kids = [("mod.py", false)] ∧
    kids ⊆ [("", true); ("mod.py", false)].
Proof.
  apply (proj1 (get_children_covers_get_all_resources 2
                  (counter.world 7 [] [])
                  [("", true); ("mod.py", false)]
                  counter_well_formed
                  ltac:(repeat constructor) eq_refl)
           counter.tree).
  - left.
  - reflexivity.
Defined.

Lemma get_all_resources_parents_first_witness :
  precedes ("", true) ("mod.py", false) [("", true); ("mod.py", false)].
Proof.
  apply (proj2 (get_all_resources_parents_first 2 counter.tree
                  [("", true); ("mod.py", false)]
                  counter_well_formed eq_refl)
           counter.tree (File "mod.py" "/proj/mod.py")).
  - left.
  - left.
Defined.

Lemma _to_relative_path_curdir_witness :
  (_to_relative_path "/proj/" (counter.world 7 [] [])).1
  = Ok posixpath.curdir.
Proof.
  apply (proj2 (_to_relative_path_curdir "/proj/" (counter.world 7 [] [])
                  eq_refl)).
  vm_compute. reflexivity.
Defined.

Lemma _to_relative_path_of_joined_witness :
  _to_relative_path "/proj/pkg/mod.py" (counter.world 7 [] [])
  = (Ok "pkg/mod.py", counter.world 7 [] []).
Proof.
  apply (_to_relative_path_of_joined ["pkg"; "mod.py"]
           (counter.world 7 [] [])).
  - reflexivity.
  - repeat constructor; discriminate.
  - discriminate.
Defined.

Lemma joined_resolved_path_witness :
  posixpath.nonempty_comps
    (posixpath.abspath "/home" (posixpath.join "/proj" ["mod.py"]))
  = posixpath.nonempty_comps
      (posixpath.abspath "/home" "/proj/pkg/../mod.py").
Proof.
  apply (joined_resolved_path "/proj/pkg/../mod.py" "mod.py"
           (counter.world 7 [] [])).
  - reflexivity.
  - reflexivity.
  - exists ["mod.py"]. vm_compute. reflexivity.
  - vm_compute. reflexivity.
Defined.

Lemma get_definition_location_without_line_witness :
  get_definition_location "x = 1" 2 "/proj/mod.py" lineless_world
  = (Ok (LResource (File "mod.py" "/proj/mod.py"), None), lineless_world).
Proof.
  apply (get_definition_location_without_line
           "x = 1" 2 "/proj/mod.py" "mod.py" lineless_world
           (File "mod.py" "/proj/mod.py")
           (Some (File "mod.py" "/proj/mod.py"))).
  - vm_compute. reflexivity.
  - reflexivity.
  - reflexivity.
Defined.

Lemma missing_resource_raises_witness :
  RopeInterface_get_children "/proj/none.py" (counter.world 7 [] [])
  = (Raise ResourceNotFoundError, counter.world 7 [] []).
Proof.
  apply (missing_resource_raises (λ _ _ _ _, Ok []) (λ _ _ _ _, Ok None)
           "/proj/none.py" "none.py" (counter.world 7 [] [])
           ResourceNotFoundError).
  - vm_compute. reflexivity.
  - reflexivity.
Defined.

Lemma compute_failure_logged_witness :
  _extract "/proj/mod.py" "f" 5 5 ExtractMethod (counter.world 7 [] [])
  = (Raise (EngineError "empty region"),
     {| proj := proj (counter.world 7 [] []); cwd := "/home";
        log := ["_extract failed"] |}).
Proof.
  apply (proj1 (compute_failure_logged "/proj/mod.py" "mod.py"
                  (counter.world 7 [] []) (File "mod.py" "/proj/mod.py")
                  (EngineError "empty region")
                  ltac:(vm_compute; reflexivity) eq_refl)
           ExtractMethod "f" 5%Z 5%Z (5%Z, 5%Z)).
  - reflexivity.
  - reflexivity.
Defined.

Lemma get_definition_location_cases_witness :
  get_definition_location "x = 1" 5 "/proj/mod.py" (counter.world 7 [] [])
  = (Ok (LPath "mod.py", Some 5%Z), counter.world 7 [] []).
Proof.
  destruct (get_definition_location_cases "x = 1" 5 "/proj/mod.py"
              (counter.world 7 [] [])) as (q & Hq & _ & Hcases).
  assert (q = "mod.py") as -> by (vm_compute in Hq; congruence).
  apply (Hcases (File "mod.py" "/proj/mod.py") (None, Some 5%Z)).
  - reflexivity.
  - reflexivity.
Defined.
